(** * fix_encoding.py: BOM removal, entity unescaping and CRLF rewrite

    A shallow embedding of [src/fix_encoding.py].  The script walks over a
    list of paths; every file is read as UTF-8 text, four literal
    substitutions are chained on the text, and the text is written back
    with [newline='\r\n'].  One line is printed per file, and a closing
    line at the end.

    - Python text ([str]) is a sequence of Unicode code points: [list Z].
    - Paths are the ASCII literals of the script: [string].
    - The disk is a finite map from paths to files holding bytes.
    - [try]/[except Exception] becomes a sum type threaded through the
      per-file step; [print] appends to an output stream.  *)

From Stdlib Require Import ZArith List Lia Bool Ascii String Permutation.
From stdpp Require Import gmap strings.
Import ListNotations.

Local Open Scope Z_scope.

(** ** Text *)

Definition str := list Z.

(** The code points of an ASCII literal of the script. *)
Fixpoint lit (s : string) : str :=
  match s with
  | EmptyString => []
  | String c s' => Z.of_N (N_of_ascii c) :: lit s'
  end.

Definition BOM : Z := 0xFEFF.
Definition LF : Z := 10.
Definition CR : Z := 13.

(** [s.startswith(p)] *)
Fixpoint startswith (p s : str) : bool :=
  match p, s with
  | [], _ => true
  | _ :: _, [] => false
  | a :: p', b :: s' => (a =? b) && startswith p' s'
  end.

(** [p in s] *)
Fixpoint contains (p s : str) : bool :=
  startswith p s ||
  match s with
  | [] => false
  | _ :: s' => contains p s'
  end.

(** Left-to-right scan of [str.replace] for a non-empty pattern: at a
    position where [old] starts, [new] is emitted and the scan resumes
    after the match ([skip] counts the characters of the match still to
    be passed over); elsewhere the character is copied. *)
Fixpoint replace_from (old new : str) (skip : nat) (s : str) : str :=
  match s with
  | [] => []
  | c :: s' =>
      match skip with
      | S k => replace_from old new k s'
      | O =>
          if startswith old s
          then new ++ replace_from old new (Nat.pred (length old)) s'
          else c :: replace_from old new 0 s'
      end
  end.

(** [s.replace(old, new)]: every non-overlapping occurrence, leftmost
    first.  An empty pattern matches before every character and at the
    end, as in Python. *)
Definition str_replace (s old new : str) : str :=
  match old with
  | [] => new ++ flat_map (fun c => c :: new) s
  | _ :: _ => replace_from old new 0 s
  end.

Definition apos : str := lit "&apos;".
Definition quot : str := lit "&quot;".
Definition amp : str := lit "&amp;".

(** Lines 23-26 of the script. *)
Definition transform (content : str) : str :=
  let content := str_replace content [BOM] [] in
  let content := str_replace content apos (lit "'") in
  let content := str_replace content quot [34] in
  let content := str_replace content amp (lit "&") in
  content.

(** ** Files

    [open(path, 'r', encoding='utf-8')] decodes strictly and, [newline]
    being left to its default, reads with universal newlines;
    [open(path, 'w', encoding='utf-8', newline='\r\n')] truncates the
    file, translates every line feed written and encodes. *)

Definition is_cont (b : Z) : bool := (0x80 <=? b) && (b <=? 0xBF).
Definition is_surrogate (c : Z) : bool := (0xD800 <=? c) && (c <=? 0xDFFF).

(** Strict UTF-8: shortest form only, no surrogates, nothing above
    U+10FFFF. *)
Fixpoint utf8_decode (bs : list Z) : option str :=
  match bs with
  | [] => Some []
  | b0 :: r0 =>
      if (0 <=? b0) && (b0 <? 0x80) then
        option_map (cons b0) (utf8_decode r0)
      else if (0xC2 <=? b0) && (b0 <=? 0xDF) then
        match r0 with
        | b1 :: r1 =>
            if is_cont b1
            then option_map (cons ((b0 - 0xC0) * 64 + (b1 - 0x80))) (utf8_decode r1)
            else None
        | _ => None
        end
      else if (0xE0 <=? b0) && (b0 <=? 0xEF) then
        match r0 with
        | b1 :: b2 :: r2 =>
            let c := (b0 - 0xE0) * 4096 + (b1 - 0x80) * 64 + (b2 - 0x80) in
            if is_cont b1 && is_cont b2 && (0x800 <=? c) && negb (is_surrogate c)
            then option_map (cons c) (utf8_decode r2)
            else None
        | _ => None
        end
      else if (0xF0 <=? b0) && (b0 <=? 0xF4) then
        match r0 with
        | b1 :: b2 :: b3 :: r3 =>
            let c := (b0 - 0xF0) * 262144 + (b1 - 0x80) * 4096
                     + (b2 - 0x80) * 64 + (b3 - 0x80) in
            if is_cont b1 && is_cont b2 && is_cont b3
               && (0x10000 <=? c) && (c <=? 0x10FFFF)
            then option_map (cons c) (utf8_decode r3)
            else None
        | _ => None
        end
      else None
  end.

Definition utf8_encode_char (c : Z) : option (list Z) :=
  if (0 <=? c) && (c <? 0x80) then Some [c]
  else if (0x80 <=? c) && (c <? 0x800) then
    Some [0xC0 + c / 64; 0x80 + c mod 64]
  else if (0x800 <=? c) && (c <? 0x10000) then
    if is_surrogate c then None
    else Some [0xE0 + c / 4096; 0x80 + (c / 64) mod 64; 0x80 + c mod 64]
  else if (0x10000 <=? c) && (c <=? 0x10FFFF) then
    Some [0xF0 + c / 262144; 0x80 + (c / 4096) mod 64;
          0x80 + (c / 64) mod 64; 0x80 + c mod 64]
  else None.

Fixpoint utf8_encode (s : str) : option (list Z) :=
  match s with
  | [] => Some []
  | c :: s' =>
      match utf8_encode_char c, utf8_encode s' with
      | Some bs, Some bs' => Some (bs ++ bs')
      | _, _ => None
      end
  end.

(** Reading with [newline=None]: CR LF and a lone CR both become LF. *)
Fixpoint universal_newlines (s : str) : str :=
  match s with
  | [] => []
  | c :: s' =>
      if c =? CR then
        LF :: match s' with
              | d :: s'' =>
                  if d =? LF then universal_newlines s'' else universal_newlines s'
              | [] => []
              end
      else c :: universal_newlines s'
  end.

(** Writing with [newline='\r\n']: the text layer replaces every line
    feed by the chosen terminator. *)
Definition write_translate (s : str) : str := str_replace s [LF] [CR; LF].

Record file := File {
  file_bytes : list Z;
  file_readable : bool;
  file_writable : bool
}.

Definition set_bytes (bs : list Z) (f : file) : file :=
  {| file_bytes := bs;
     file_readable := file_readable f;
     file_writable := file_writable f |}.

(** What [except Exception as e] can catch here. *)
Inductive exn :=
| FileNotFoundError (path : string)
| PermissionError (path : string)
| UnicodeDecodeError
| UnicodeEncodeError.

Record world := World {
  disk : gmap string file;
  stdout : string
}.

(** Statements of the script: a state over the world, which may raise. *)
Definition io (A : Type) : Type := world -> (exn + A) * world.

Definition ret {A} (a : A) : io A := fun w => (inr a, w).

Definition raise {A} (e : exn) : io A := fun w => (inl e, w).

Definition bind {A B} (m : io A) (k : A -> io B) : io B :=
  fun w =>
    match m w with
    | (inr a, w') => k a w'
    | (inl e, w') => (inl e, w')
    end.

Definition try_except {A} (body : io A) (handler : exn -> io A) : io A :=
  fun w =>
    match body w with
    | (inr a, w') => (inr a, w')
    | (inl e, w') => handler e w'
    end.

Notation "x <- m ;; k" := (bind m (fun x => k))
  (at level 100, m at next level, right associativity).
Notation "m ;;; k" := (bind m (fun _ => k))
  (at level 100, right associativity).

Definition newline : string := String (ascii_of_nat 10) EmptyString.

(** [print(s)] *)
Definition print (s : string) : io unit :=
  fun w => (inr tt, {| disk := disk w; stdout := stdout w +:+ s +:+ newline |}).

(** [with open(path, 'r', encoding='utf-8') as f: content = f.read()] *)
Definition read_text (path : string) : io str :=
  fun w =>
    match disk w !! path with
    | None => (inl (FileNotFoundError path), w)
    | Some f =>
        if file_readable f then
          match utf8_decode (file_bytes f) with
          | Some s => (inr (universal_newlines s), w)
          | None => (inl UnicodeDecodeError, w)
          end
        else (inl (PermissionError path), w)
    end.

Definition store (path : string) (f : file) (w : world) : world :=
  {| disk := <[path := f]> (disk w); stdout := stdout w |}.

(** [with open(path, 'w', encoding='utf-8', newline='\r\n') as f:
    f.write(content)].  Opening truncates (or creates) the file before
    anything is encoded. *)
Definition write_text (path : string) (content : str) : io unit :=
  fun w =>
    let opened :=
      match disk w !! path with
      | None => Some (File [] true true)
      | Some f => if file_writable f then Some (set_bytes [] f) else None
      end in
    match opened with
    | None => (inl (PermissionError path), w)
    | Some f =>
        match utf8_encode (write_translate content) with
        | Some bs => (inr tt, store path (set_bytes bs f) w)
        | None => (inl UnicodeEncodeError, store path f w)
        end
    end.

Definition files_to_fix : list string := [
  "src\app\(admin)\admin\page.tsx";
  "src\app\(admin)\admin\settings\page.tsx";
  "src\app\(auth)\auth\forgot-password\ForgotPasswordClient.tsx";
  "src\app\(auth)\auth\steps\EmailStep.tsx";
  "src\app\(auth)\auth\steps\EnterStep.tsx";
  "src\app\(storefront)\cart\CartClient.tsx";
  "src\app\(storefront)\order\failure\OrderFailureClient.tsx";
  "src\components\admin\products\ProductForm.tsx";
  "src\components\ErrorBoundary.tsx";
  "src\components\PhoneVerificationModal.tsx"
]%string.

Section Script.

(** [str(e)], the interpreter's text for a caught exception. *)
Variable describe : exn -> string.

(** The [try] block, lines 18-32. *)
Definition fix_body (file_path : string) : io unit :=
  content <- read_text file_path ;;
  let content := transform content in
  write_text file_path content ;;;
  print ("Fixed: " +:+ file_path).

(** The body of the loop, lines 17-34. *)
Definition fix_file (file_path : string) : io unit :=
  try_except
    (fix_body file_path)
    (fun e => print ("Error fixing " +:+ file_path +:+ ": " +:+ describe e)).

Fixpoint for_each (paths : list string) : io unit :=
  match paths with
  | [] => ret tt
  | file_path :: rest => fix_file file_path ;;; for_each rest
  end.

(** The script over an arbitrary path list. *)
Definition fix_all (paths : list string) : io unit :=
  for_each paths ;;;
  print (newline +:+ "All files processed!").

Definition main : io unit := fix_all files_to_fix.

(** The line printed for a path, from the outcome of its [try] block. *)
Definition report_line (file_path : string) (w : world) : string :=
  match fst (fix_body file_path w) with
  | inr _ => "Fixed: " +:+ file_path
  | inl e => "Error fixing " +:+ file_path +:+ ": " +:+ describe e
  end.

(** The lines printed for a list of paths, each from the world its
    path is met in. *)
Fixpoint report_lines (paths : list string) (w : world) : list string :=
  match paths with
  | [] => []
  | file_path :: rest =>
      report_line file_path w :: report_lines rest (snd (fix_file file_path w))
  end.

End Script.

(** Every line followed by a line feed, as [print] emits them. *)
Fixpoint printed (lines : list string) : string :=
  match lines with
  | [] => EmptyString
  | l :: rest => l +:+ newline +:+ printed rest
  end.

(** The [try] block of a path raises in this world. *)
Definition fails (file_path : string) (w : world) : Prop :=
  exists e, fst (fix_body file_path w) = inl e.

(** What a successful pass leaves in a file holding [bs]. *)
Definition fixed_bytes (bs : list Z) : option (list Z) :=
  match utf8_decode bs with
  | Some raw => utf8_encode (write_translate (transform (universal_newlines raw)))
  | None => None
  end.

(** ** The rule list of the specification

    The specification speaks of an ordered list of substitution rules,
    applied one after the other to the whole text. *)

Definition rule : Type := str * str.

Definition apply_rule (s : str) (r : rule) : str := str_replace s (fst r) (snd r).

Definition apply_rules (rs : list rule) (s : str) : str := fold_left apply_rule rs s.

Definition bom_rule : rule := ([BOM], []).
Definition apos_rule : rule := (apos, lit "'").
Definition quot_rule : rule := (quot, [34]).
Definition amp_rule : rule := (amp, lit "&").

(** ** Logical lines *)

(** [s.split(sep)] for a one-character separator. *)
Fixpoint split_on (sep : Z) (s : str) : list str :=
  match s with
  | [] => [[]]
  | c :: s' =>
      if c =? sep then [] :: split_on sep s'
      else match split_on sep s' with
           | l :: ls => (c :: l) :: ls
           | [] => [[c]]
           end
  end.

(** [sep.join(ls)] *)
Fixpoint join (sep : str) (ls : list str) : str :=
  match ls with
  | [] => []
  | [l] => l
  | l :: ls' => l ++ sep ++ join sep ls'
  end.

(** ** Notions used to state the properties *)

(** [p] occurs in [s] as a contiguous run. *)
Definition occurs (p s : str) : Prop := exists l r, s = l ++ p ++ r.

(** No byte-order mark and none of the three entities. *)
Definition clean (s : str) : Prop :=
  ~ In BOM s /\ ~ occurs apos s /\ ~ occurs quot s /\ ~ occurs amp s.

Definition strip_bom (s : str) : str := str_replace s [BOM] [].

(** An entity whose ampersand is itself escaped. *)
Definition escaped (entity : str) : str := amp ++ tl entity.

(** A Unicode scalar value: what strict UTF-8 can carry. *)
Definition is_scalar (c : Z) : bool :=
  (0 <=? c) && (c <=? 0x10FFFF) && negb (is_surrogate c).

(** Stages of the chain, named after the last rule applied. *)
Definition after_apos (T : str) : str := str_replace (strip_bom T) apos (lit "'").
Definition after_quot (T : str) : str := str_replace (after_apos T) quot [34].

(** What the text layer writes for one character. *)
Definition crlf (c : Z) : str := if c =? LF then [CR; LF] else [c].

Definition scalars (s : str) : Prop := Forall (fun c => is_scalar c = true) s.

(** The effect of one pass on the disk. *)
Definition fix_disk (p : string) (d : gmap string file) : gmap string file :=
  match d !! p with
  | Some f =>
      if file_readable f && file_writable f then
        match fixed_bytes (file_bytes f) with
        | Some bs => <[p := set_bytes bs f]> d
        | None => d
        end
      else d
  | None => d
  end.

(** [n] successive passes over the bytes of a file. *)
Fixpoint fixed_bytes_times (n : nat) (bs : list Z) : option (list Z) :=
  match n with
  | O => Some bs
  | S k =>
      match fixed_bytes bs with
      | Some bs' => fixed_bytes_times k bs'
      | None => None
      end
  end.

Definition entities : list str := [apos; quot; amp].

(** [p in s] for each pattern the script looks for. *)
Definition is_clean (s : str) : bool :=
  negb (contains [BOM] s) && negb (contains apos s)
  && negb (contains quot s) && negb (contains amp s).

(** No entity of the text, its marks removed, has an escaped
    ampersand. *)
Definition singly_escaped (T : str) : bool :=
  forallb (fun e => negb (contains (escaped e) (strip_bom T))) entities.

Definition rules : list rule := [bom_rule; apos_rule; quot_rule; amp_rule].

(** [repr] of a path of the script: quoted, backslashes doubled. *)
Fixpoint double_backslashes (s : string) : string :=
  match s with
  | EmptyString => EmptyString
  | String c s' =>
      if Ascii.eqb c "\" then String c (String c (double_backslashes s'))
      else String c (double_backslashes s')
  end.

(** An instance of [describe] for the examples, after the texts of the
    interpreter. *)
Definition sample_describe (e : exn) : string :=
  match e with
  | FileNotFoundError p =>
      "[Errno 2] No such file or directory: '" +:+ double_backslashes p +:+ "'"
  | PermissionError p =>
      "[Errno 13] Permission denied: '" +:+ double_backslashes p +:+ "'"
  | UnicodeDecodeError => "'utf-8' codec can't decode bytes"
  | UnicodeEncodeError => "'utf-8' codec can't encode characters"
  end.

(** [c in s] for the line feed. *)
Fixpoint has_newline (s : string) : bool :=
  match s with
  | EmptyString => false
  | String c s' => Ascii.eqb c (ascii_of_nat 10) || has_newline s'
  end.

Definition completion : string := "All files processed!".

(** The file of the scenario: the mark, the markup, a line feed. *)
Definition scenario_bytes : list Z :=
  [0xEF; 0xBB; 0xBF]
  ++ lit "<p>It&apos;s &quot;ready&quot; &amp; done.</p>" ++ [LF].

Definition scenario_path : string := "src\components\ErrorBoundary.tsx".

Definition scenario_world : world :=
  {| disk := {[ scenario_path := File scenario_bytes true true ]};
     stdout := "" |}.

(** Three paths, the second of which does not exist. *)
Definition three_paths_world : world :=
  {| disk := {[ "a.tsx"%string := File (lit "It&apos;s" ++ [CR; LF] ++ lit "ok" ++ [LF]) true true;
                "c.tsx"%string := File (lit "&quot;c&quot;" ++ [CR] ++ lit "d") true true ]};
     stdout := "" |}.

Definition fixed_line (p : string) : string := "Fixed: " +:+ p.
Definition error_line (describe : exn -> string) (p : string) (e : exn) : string :=
  "Error fixing " +:+ p +:+ ": " +:+ describe e.

(** ** Notions used for the further properties *)

(** The characters the chain looks for or writes. *)
Definition alphabet : list Z := [BOM] ++ apos ++ quot ++ amp ++ [39; 34].

(** The characters of a text the chain has no rule for, in their order. *)
Definition outside (s : str) : str :=
  List.filter (fun c => negb (existsb (Z.eqb c) alphabet)) s.

(** The chain with the two quote rules exchanged. *)
Definition quot_first : list rule := [bom_rule; quot_rule; apos_rule; amp_rule].

(** The byte-order mark as UTF-8 encodes it. *)
Definition mark_bytes : list Z := [0xEF; 0xBB; 0xBF].

(** ** The scan of [str.replace] *)

Example replace_leftmost_first :
  str_replace (lit "aaa") (lit "aa") (lit "b") = lit "ba".
Proof. reflexivity. Qed.

Example replace_empty_pattern :
  str_replace (lit "abc") [] (lit "-") = lit "-a-b-c-".
Proof. reflexivity. Qed.

Example transform_unescapes_once :
  transform (lit "&amp;apos;") = lit "&apos;".
Proof. reflexivity. Qed.

Example transform_mark_inside_entity :
  transform (lit "&a" ++ BOM :: lit "pos;") = lit "'".
Proof. reflexivity. Qed.

Example universal_newlines_mixed :
  universal_newlines (lit "a" ++ [CR; LF] ++ lit "b" ++ [CR] ++ lit "c" ++ [LF; CR; CR; LF])
  = lit "a" ++ [LF] ++ lit "b" ++ [LF] ++ lit "c" ++ [LF; LF; LF].
Proof. reflexivity. Qed.

Example utf8_decode_mark :
  utf8_decode [0xEF; 0xBB; 0xBF; 0x41] = Some [BOM; 0x41]
  /\ utf8_encode [BOM; 0x41] = Some [0xEF; 0xBB; 0xBF; 0x41]
  /\ utf8_decode [0xC0; 0x80] = None
  /\ utf8_decode [0xED; 0xA0; 0x80] = None.
Proof. repeat split; reflexivity. Qed.

Lemma startswith_app p r : startswith p (p ++ r) = true.
Proof.
  induction p as [|a p IH]; simpl; [reflexivity|].
  rewrite Z.eqb_refl. exact IH.
Qed.

Lemma startswith_inv p s :
  startswith p s = true -> exists r, s = p ++ r.
Proof.
  revert s. induction p as [|a p IH]; intros s H.
  - exists s. reflexivity.
  - destruct s as [|b s]; simpl in H; [discriminate|].
    apply andb_true_iff in H. destruct H as [Hab Hps].
    apply Z.eqb_eq in Hab. subst b.
    destruct (IH _ Hps) as [r ->]. exists r. reflexivity.
Qed.

Lemma startswith_head a p s :
  startswith (a :: p) s = true -> exists s', s = a :: s' /\ startswith p s' = true.
Proof.
  destruct s as [|b s]; simpl; [discriminate|].
  intros H. apply andb_true_iff in H. destruct H as [Hab Hps].
  apply Z.eqb_eq in Hab. subst b. exists s. split; [reflexivity | exact Hps].
Qed.

Lemma occurs_nil_inv p : occurs p [] -> p = [].
Proof.
  intros (l & r & H). symmetry in H.
  apply app_eq_nil in H. destruct H as [_ H].
  apply app_eq_nil in H. tauto.
Qed.

Lemma occurs_here p r : occurs p (p ++ r).
Proof. exists [], r. reflexivity. Qed.

Lemma occurs_cons p c s : occurs p s -> occurs p (c :: s).
Proof. intros (l & r & ->). exists (c :: l), r. reflexivity. Qed.

Lemma occurs_app_r p k s : occurs p s -> occurs p (k ++ s).
Proof.
  intros H. induction k as [|c k IH]; simpl; [exact H|].
  apply occurs_cons, IH.
Qed.

Lemma occurs_cons_inv p c s :
  occurs p (c :: s) -> startswith p (c :: s) = true \/ occurs p s.
Proof.
  intros (l & r & H). destruct l as [|d l]; simpl in H.
  - left. rewrite H. apply startswith_app.
  - right. injection H as _ H. exists l, r. exact H.
Qed.

Lemma contains_occurs p s : contains p s = true <-> occurs p s.
Proof.
  split.
  - induction s as [|c s IH]; simpl; intros H.
    + rewrite orb_false_r in H. apply startswith_inv in H.
      destruct H as [r ->]. apply occurs_here.
    + apply orb_true_iff in H. destruct H as [H|H].
      * apply startswith_inv in H. destruct H as [r ->]. apply occurs_here.
      * apply occurs_cons, IH, H.
  - induction s as [|c s IH]; intros H.
    + apply occurs_nil_inv in H. subst p. reflexivity.
    + simpl contains. apply orb_true_iff.
      destruct (occurs_cons_inv _ _ _ H) as [H'|H']; [left; exact H'|].
      right. apply IH, H'.
Qed.

Lemma replace_from_skip old new k s :
  replace_from old new k s = replace_from old new 0 (skipn k s).
Proof.
  revert k. induction s as [|c s IH]; intros [|k]; try reflexivity.
  simpl skipn. rewrite <- IH. reflexivity.
Qed.

Section Replace.

Variables old new : str.
Hypothesis old_nonempty : old <> [].

Lemma str_replace_nil : str_replace [] old new = [].
Proof. destruct old; [contradiction | reflexivity]. Qed.

Lemma str_replace_match r :
  str_replace (old ++ r) old new = new ++ str_replace r old new.
Proof.
  unfold str_replace. destruct old as [|a p] eqn:E; [contradiction|].
  rewrite <- E. assert (Hs : startswith old (old ++ r) = true)
    by apply startswith_app.
  rewrite E in *. simpl app in *. simpl replace_from.
  simpl in Hs. rewrite Hs. f_equal.
  rewrite replace_from_skip. f_equal.
  simpl. clear. induction p as [|b p IH]; [reflexivity | exact IH].
Qed.

Lemma str_replace_copy c s :
  startswith old (c :: s) = false ->
  str_replace (c :: s) old new = c :: str_replace s old new.
Proof.
  unfold str_replace. destruct old as [|a p]; [contradiction|].
  intros H. simpl replace_from. simpl in H. rewrite H. reflexivity.
Qed.

(** Induction following the scan: a match is replaced and the scan
    resumes behind it, any other character is copied. *)
Lemma str_replace_ind (P : str -> str -> Prop) :
  P [] [] ->
  (forall r, P r (str_replace r old new) ->
             P (old ++ r) (new ++ str_replace r old new)) ->
  (forall c s, startswith old (c :: s) = false ->
               P s (str_replace s old new) ->
               P (c :: s) (c :: str_replace s old new)) ->
  forall s, P s (str_replace s old new).
Proof.
  intros Hnil Hmatch Hcopy s.
  remember (length s) as n eqn:Hn. revert s Hn.
  induction n as [n IH] using (well_founded_induction Nat.lt_wf_0).
  intros [|c s] Hn.
  - rewrite str_replace_nil. exact Hnil.
  - destruct (startswith old (c :: s)) eqn:Hs.
    + apply startswith_inv in Hs. destruct Hs as [r Hr].
      rewrite Hr, str_replace_match. apply Hmatch.
      apply (IH (length r)); [|reflexivity].
      subst n. rewrite Hr, length_app.
      destruct old; [contradiction | simpl; lia].
    + rewrite (str_replace_copy _ _ Hs). apply Hcopy; [exact Hs|].
      apply (IH (length s)); [subst n; simpl; lia | reflexivity].
Qed.

(** Nothing to replace: the text is returned as it is. *)
Lemma str_replace_absent s : ~ occurs old s -> str_replace s old new = s.
Proof.
  apply (str_replace_ind (fun s o => ~ occurs old s -> o = s)).
  - reflexivity.
  - intros r _ H. exfalso. apply H, occurs_here.
  - intros c s' _ IH H. f_equal. apply IH.
    intros H'. apply H, occurs_cons, H'.
Qed.

(** A replacement no longer than the pattern never lengthens the text. *)
Lemma str_replace_length s :
  (length new <= length old)%nat ->
  (length (str_replace s old new) <= length s)%nat.
Proof.
  intros Hlen.
  apply (str_replace_ind (fun s o => (length o <= length s)%nat)).
  - simpl. lia.
  - intros r IH. rewrite !length_app. lia.
  - intros c s' _ IH. simpl. lia.
Qed.

(** Every character of the result is copied from the text or comes
    from the replacement. *)
Lemma str_replace_chars s x :
  In x (str_replace s old new) -> In x s \/ In x new.
Proof.
  apply (str_replace_ind (fun s o => In x o -> In x s \/ In x new)).
  - intros [].
  - intros r IH H. apply in_app_or in H. destruct H as [H|H]; [right; exact H|].
    destruct (IH H) as [H'|H']; [left | right; exact H'].
    apply in_or_app. right. exact H'.
  - intros c s' _ IH [H|H]; [left; left; exact H|].
    destruct (IH H) as [H'|H']; [left; right; exact H' | right; exact H'].
Qed.

End Replace.

(** *** Replacing a pattern by a single character *)

Section ReplaceByChar.

Variable old : str.
Variable q : Z.
Hypothesis old_nonempty : old <> [].

(** A run free of [q] at the head of the result was at the head of
    the text. *)
Lemma replace_char_startswith s p :
  ~ In q p -> startswith p (str_replace s old [q]) = true -> startswith p s = true.
Proof.
  revert p.
  apply (str_replace_ind old [q] old_nonempty
           (fun s o => forall p, ~ In q p ->
                         startswith p o = true -> startswith p s = true)).
  - intros p _ H. exact H.
  - intros r _ [|a p] Hq H; [reflexivity|].
    apply startswith_head in H. destruct H as (s' & E & _).
    injection E as E _. exfalso. apply Hq. left. symmetry. exact E.
  - intros c s' _ IH [|a p] Hq H; [reflexivity|].
    apply startswith_head in H. destruct H as (s'' & E & H).
    injection E as -> <-. simpl. rewrite Z.eqb_refl. simpl.
    apply IH; [|exact H]. intros Hin. apply Hq. right. exact Hin.
Qed.

(** The pass creates no occurrence of a run free of [q]. *)
Lemma replace_char_occurs s p :
  ~ In q p -> occurs p (str_replace s old [q]) -> occurs p s.
Proof.
  intros Hq.
  apply (str_replace_ind old [q] old_nonempty
           (fun s o => occurs p o -> occurs p s)).
  - intros H. exact H.
  - intros r IH H. apply occurs_cons_inv in H. destruct H as [H|H].
    + destruct p as [|a p]; [exists [], (old ++ r); reflexivity|].
      apply startswith_head in H. destruct H as (s' & E & _).
      injection E as E _. exfalso. apply Hq. left. symmetry. exact E.
    + apply occurs_app_r, IH, H.
  - intros c s' Hs IH H.
    assert (E : c :: str_replace s' old [q] = str_replace (c :: s') old [q]).
    { symmetry. apply str_replace_copy; assumption. }
    apply occurs_cons_inv in H. destruct H as [H|H].
    + rewrite E in H. apply replace_char_startswith in H; [|exact Hq].
      apply startswith_inv in H. destruct H as [r ->]. apply occurs_here.
    + apply occurs_cons, IH, H.
Qed.

(** When [q] is not a character of the pattern, no occurrence of the
    pattern is left. *)
Lemma replace_char_gone s : ~ In q old -> ~ occurs old (str_replace s old [q]).
Proof.
  intros Hq.
  apply (str_replace_ind old [q] old_nonempty (fun s o => ~ occurs old o)).
  - intros H. apply occurs_nil_inv in H. contradiction.
  - intros r IH H. apply occurs_cons_inv in H. destruct H as [H|H]; [|tauto].
    destruct old as [|a p]; [contradiction|].
    apply startswith_head in H. destruct H as (s' & E & _).
    injection E as E _. apply Hq. left. symmetry. exact E.
  - intros c s' Hs IH H.
    assert (E : c :: str_replace s' old [q] = str_replace (c :: s') old [q]).
    { symmetry. apply str_replace_copy; assumption. }
    apply occurs_cons_inv in H. destruct H as [H|H]; [|tauto].
    rewrite E in H. apply replace_char_startswith in H; [|exact Hq].
    congruence.
Qed.

(** When [q] is the first character of the pattern, an occurrence of
    [q :: t] in the result is either the rest of an escaped one or was
    there already, and then it is not the pattern itself. *)
Lemma replace_char_unescape s t :
  ~ In q t ->
  occurs (q :: t) (str_replace s old [q]) ->
  occurs (old ++ t) s \/ (q :: t <> old /\ occurs (q :: t) s).
Proof.
  intros Hq.
  apply (str_replace_ind old [q] old_nonempty
           (fun s o => occurs (q :: t) o ->
               occurs (old ++ t) s \/ (q :: t <> old /\ occurs (q :: t) s))).
  - intros H. apply occurs_nil_inv in H. discriminate.
  - intros r IH H. apply occurs_cons_inv in H. destruct H as [H|H].
    + left. apply startswith_head in H. destruct H as (s' & E & H).
      injection E as <-. apply replace_char_startswith in H; [|exact Hq].
      apply startswith_inv in H. destruct H as [k ->].
      exists [], k. simpl. rewrite <- app_assoc. reflexivity.
    + destruct (IH H) as [H'|[Hne H']].
      * left. apply occurs_app_r, H'.
      * right. split; [exact Hne | apply occurs_app_r, H'].
  - intros c s' Hs IH H. apply occurs_cons_inv in H. destruct H as [H|H].
    + right. apply startswith_head in H. destruct H as (s'' & E & H).
      injection E as -> <-. apply replace_char_startswith in H; [|exact Hq].
      split.
      * intros Heq. rewrite <- Heq in Hs. simpl in Hs.
        rewrite Z.eqb_refl, H in Hs. discriminate.
      * apply startswith_inv in H. destruct H as [k ->].
        exists [], k. reflexivity.
    + destruct (IH H) as [H'|[Hne H']].
      * left. apply occurs_cons, H'.
      * right. split; [exact Hne | apply occurs_cons, H'].
Qed.

End ReplaceByChar.

(** Removing a character leaves none of it. *)
Lemma remove_char_gone b s : ~ In b (str_replace s [b] []).
Proof.
  apply (str_replace_ind [b] [] ltac:(discriminate) (fun s o => ~ In b o)).
  - intros [].
  - intros r IH. exact IH.
  - intros c s' Hs IH [H|H]; [|tauto].
    subst c. simpl in Hs. rewrite Z.eqb_refl in Hs. discriminate.
Qed.

(** ** The substitution chain *)

Ltac not_in :=
  let H := fresh "Hin" in
  simpl; intros H; repeat destruct H as [H|H]; try discriminate H; contradiction.

Lemma occurs_singleton b s : occurs [b] s <-> In b s.
Proof.
  split.
  - intros (l & r & ->). apply in_or_app. right. left. reflexivity.
  - intros H. apply in_split in H. destruct H as (l & r & ->).
    exists l, r. reflexivity.
Qed.

Lemma strip_bom_no_bom T : ~ In BOM (strip_bom T).
Proof. apply remove_char_gone. Qed.

Lemma transform_stages T : transform T = str_replace (after_quot T) amp (lit "&").
Proof. reflexivity. Qed.

Lemma after_apos_occurs T p :
  ~ In 39 p -> occurs p (after_apos T) -> occurs p (strip_bom T).
Proof. apply replace_char_occurs. discriminate. Qed.

Lemma after_quot_occurs T p :
  ~ In 34 p -> occurs p (after_quot T) -> occurs p (after_apos T).
Proof. apply replace_char_occurs. discriminate. Qed.

Lemma after_quot_no_apos T : ~ occurs apos (after_quot T).
Proof.
  intros H. apply after_quot_occurs in H; [|not_in].
  revert H. apply replace_char_gone; [discriminate | not_in].
Qed.

Lemma after_quot_no_quot T : ~ occurs quot (after_quot T).
Proof. apply replace_char_gone; [discriminate | not_in]. Qed.

Lemma after_quot_no_bom T : ~ In BOM (after_quot T).
Proof.
  intros H. apply str_replace_chars in H; [|discriminate].
  destruct H as [H|H]; [|revert H; not_in].
  apply str_replace_chars in H; [|discriminate].
  destruct H as [H|H]; [|revert H; not_in].
  revert H. apply strip_bom_no_bom.
Qed.

Lemma transform_no_bom T : ~ In BOM (transform T).
Proof.
  rewrite transform_stages. intros H.
  apply str_replace_chars in H; [|discriminate].
  destruct H as [H|H]; [|revert H; not_in].
  revert H. apply after_quot_no_bom.
Qed.

(** An entity in the result is what is left of an escaped entity of the
    text, once the marks are removed. *)
Lemma transform_entity_escaped T e :
  In e [apos; quot; amp] ->
  occurs e (transform T) -> occurs (escaped e) (strip_bom T).
Proof.
  intros He H. rewrite transform_stages in H.
  assert (Hu : forall t, ~ In 38 t -> ~ In 39 t -> ~ In 34 t ->
             occurs (38 :: t) (str_replace (after_quot T) amp [38]) ->
             occurs (amp ++ t) (strip_bom T)
             \/ (38 :: t <> amp /\ occurs (38 :: t) (after_quot T))).
  { intros t H38 H39 H34 Ho.
    apply replace_char_unescape in Ho; [|discriminate|exact H38].
    destruct Ho as [Ho|Ho]; [left | right; exact Ho].
    apply after_apos_occurs.
    { intros Hin. apply in_app_or in Hin. destruct Hin as [Hin|Hin];
        [revert Hin; not_in | contradiction]. }
    apply after_quot_occurs; [|exact Ho].
    intros Hin. apply in_app_or in Hin. destruct Hin as [Hin|Hin];
      [revert Hin; not_in | contradiction]. }
  simpl in He. destruct He as [<-|[<-|[<-|[]]]].
  - destruct (Hu (lit "apos;")) as [Ho|[_ Ho]];
      [not_in | not_in | not_in | exact H | exact Ho |].
    exfalso. exact (after_quot_no_apos T Ho).
  - destruct (Hu (lit "quot;")) as [Ho|[_ Ho]];
      [not_in | not_in | not_in | exact H | exact Ho |].
    exfalso. exact (after_quot_no_quot T Ho).
  - destruct (Hu (lit "amp;")) as [Ho|[Hne _]];
      [not_in | not_in | not_in | exact H | exact Ho |].
    exfalso. apply Hne. reflexivity.
Qed.

(** On a text with no mark and no entity every rule finds nothing. *)
Lemma transform_clean T : clean T -> transform T = T.
Proof.
  intros (Hbom & Hapos & Hquot & Hamp). unfold transform.
  rewrite (str_replace_absent [BOM] []); [|discriminate|].
  2:{ rewrite occurs_singleton. exact Hbom. }
  rewrite (str_replace_absent apos); [|discriminate|exact Hapos].
  rewrite (str_replace_absent quot); [|discriminate|exact Hquot].
  apply str_replace_absent; [discriminate | exact Hamp].
Qed.

(** Without escaped entities the result is clean. *)
Lemma transform_gives_clean T :
  (forall e, In e [apos; quot; amp] -> ~ occurs (escaped e) (strip_bom T)) ->
  clean (transform T).
Proof.
  intros H. split; [apply transform_no_bom|].
  repeat split; intros Ho; apply transform_entity_escaped in Ho;
    try (revert Ho; apply H); simpl; tauto.
Qed.

(** ** UTF-8 *)

Ltac split_cmp :=
  repeat match goal with
         | |- context [?a <=? ?b] =>
             destruct (Z.leb_spec a b);
             try (exfalso; Z.div_mod_to_equations; lia)
         | |- context [?a <? ?b] =>
             destruct (Z.ltb_spec a b);
             try (exfalso; Z.div_mod_to_equations; lia)
         end.

Lemma is_scalar_range c :
  is_scalar c = true <->
  (0 <= c < 0xD800 \/ 0xDFFF < c <= 0x10FFFF).
Proof.
  unfold is_scalar, is_surrogate.
  split.
  - intros H. split_cmp; simpl in H; try discriminate; lia.
  - intros H. split_cmp; reflexivity.
Qed.

(** Decoding what was encoded for one scalar value gives it back. *)
Lemma utf8_char_roundtrip c rest :
  is_scalar c = true ->
  exists bs, utf8_encode_char c = Some bs /\
             utf8_decode (bs ++ rest) = option_map (cons c) (utf8_decode rest).
Proof.
  intros H. apply is_scalar_range in H.
  unfold utf8_encode_char, is_surrogate.
  split_cmp; cbn [andb negb];
    (eexists; split; [reflexivity|]);
    cbn [app utf8_decode]; unfold is_cont, is_surrogate;
    split_cmp; cbn [andb negb];
    do 2 f_equal; Z.div_mod_to_equations; lia.
Qed.

Lemma option_map_cons_inv (c : Z) (o : option str) (s : str) :
  option_map (cons c) o = Some s -> exists s', o = Some s' /\ s = c :: s'.
Proof.
  destruct o as [s'|]; simpl; [|discriminate].
  intros [= <-]. exists s'. split; reflexivity.
Qed.

(** Only scalar values come out of the decoder. *)
Lemma utf8_decode_scalar bs s :
  utf8_decode bs = Some s -> Forall (fun c => is_scalar c = true) s.
Proof.
  remember (length bs) as n eqn:Hn. revert bs s Hn.
  induction n as [n IH] using (well_founded_induction Nat.lt_wf_0).
  intros [|b0 r0] s Hn H.
  - injection H as <-. constructor.
  - cbn [utf8_decode] in H. unfold is_cont, is_surrogate in H.
    assert (Hstep : forall c r s0,
               (length r < n)%nat ->
               (0 <= c < 0xD800 \/ 0xDFFF < c <= 0x10FFFF) ->
               option_map (cons c) (utf8_decode r) = Some s0 ->
               Forall (fun c => is_scalar c = true) s0).
    { intros c r s0 Hlen Hc Hd.
      apply option_map_cons_inv in Hd. destruct Hd as (s' & Hd & ->).
      constructor; [apply is_scalar_range, Hc|].
      exact (IH _ Hlen r s' eq_refl Hd). }
    subst n. revert H. split_cmp; cbn [andb negb]; try discriminate;
      repeat match goal with
             | |- context [match ?r with [] => _ | _ :: _ => _ end] =>
                 is_var r; destruct r; try discriminate
             end;
      split_cmp; cbn [andb negb]; try discriminate;
      apply Hstep; simpl; lia.
Qed.

(** Scalar values always encode, and decode back to themselves. *)
Lemma utf8_roundtrip s :
  Forall (fun c => is_scalar c = true) s ->
  exists bs, utf8_encode s = Some bs /\ utf8_decode bs = Some s.
Proof.
  induction 1 as [|c s Hc _ (bs' & He & Hd)].
  - exists []. split; reflexivity.
  - destruct (utf8_char_roundtrip c bs' Hc) as (bs & Hec & Hdc).
    exists (bs ++ bs'). cbn [utf8_encode]. rewrite Hec, He.
    split; [reflexivity|]. rewrite Hdc, Hd. reflexivity.
Qed.

(** ** Line terminators *)

Lemma write_translate_flat_map s : write_translate s = flat_map crlf s.
Proof.
  unfold write_translate.
  apply (str_replace_ind [LF] [CR; LF] ltac:(discriminate)
           (fun s o => o = flat_map crlf s)).
  - reflexivity.
  - intros r ->. reflexivity.
  - intros c s' Hs ->. cbn [startswith] in Hs. rewrite andb_true_r in Hs.
    assert (E : crlf c = [c]) by (unfold crlf; rewrite Z.eqb_sym, Hs; reflexivity).
    cbn [flat_map]. rewrite E. reflexivity.
Qed.

(** Induction on a text together with its tail, as
    [universal_newlines] recurses. *)
Lemma universal_newlines_ind (P : str -> str -> Prop) :
  P [] [] ->
  (forall s, P s (universal_newlines s) ->
             P (CR :: LF :: s) (LF :: universal_newlines s)) ->
  (forall s, startswith [LF] s = false -> P s (universal_newlines s) ->
             P (CR :: s) (LF :: universal_newlines s)) ->
  (forall c s, c <> CR -> P s (universal_newlines s) ->
               P (c :: s) (c :: universal_newlines s)) ->
  forall s, P s (universal_newlines s).
Proof.
  intros Hnil Hcrlf Hcr Hc s.
  assert (H : P s (universal_newlines s) /\
              forall c, P (c :: s) (universal_newlines (c :: s))).
  { induction s as [|d s [IH1 IH2]].
    - split; [exact Hnil|]. intros c. cbn [universal_newlines].
      destruct (Z.eqb_spec c CR) as [->|Hne].
      + apply (Hcr []); [reflexivity | exact Hnil].
      + apply Hc; [exact Hne | exact Hnil].
    - split; [apply IH2|]. intros c.
      change (universal_newlines (c :: d :: s)) with
        (if c =? CR
         then LF :: (if d =? LF then universal_newlines s
                     else universal_newlines (d :: s))
         else c :: universal_newlines (d :: s)).
      destruct (Z.eqb_spec c CR) as [->|Hne].
      + destruct (Z.eqb_spec d LF) as [->|Hd].
        * apply Hcrlf, IH1.
        * apply Hcr; [|apply IH2]. cbn [startswith]. rewrite andb_true_r.
          apply Z.eqb_neq. congruence.
      + apply Hc; [exact Hne | apply IH2]. }
  apply H.
Qed.

Lemma universal_newlines_no_cr s : ~ In CR (universal_newlines s).
Proof.
  apply (universal_newlines_ind (fun _ o => ~ In CR o)).
  - intros [].
  - intros r IH [H|H]; [discriminate | tauto].
  - intros r _ IH [H|H]; [discriminate | tauto].
  - intros c r Hc IH [H|H]; [congruence | tauto].
Qed.

Lemma universal_newlines_chars s x :
  In x (universal_newlines s) -> In x s \/ x = LF.
Proof.
  apply (universal_newlines_ind (fun s o => In x o -> In x s \/ x = LF)).
  - intros [].
  - intros r IH [H|H]; [right; symmetry; exact H|].
    destruct (IH H) as [H'|H']; [left; right; right; exact H' | right; exact H'].
  - intros r _ IH [H|H]; [right; symmetry; exact H|].
    destruct (IH H) as [H'|H']; [left; right; exact H' | right; exact H'].
  - intros c r _ IH [H|H]; [left; left; exact H|].
    destruct (IH H) as [H'|H']; [left; right; exact H' | right; exact H'].
Qed.

(** Reading back what was written gives the text that was written. *)
Lemma universal_newlines_write s :
  ~ In CR s -> universal_newlines (write_translate s) = s.
Proof.
  rewrite write_translate_flat_map.
  induction s as [|c s IH]; intros H; [reflexivity|].
  assert (Hc : c <> CR) by (intros ->; apply H; left; reflexivity).
  assert (Hs : ~ In CR s) by (intros Hin; apply H; right; exact Hin).
  cbn [flat_map]. unfold crlf at 1.
  destruct (Z.eqb_spec c LF) as [->|Hlf].
  - cbn [app universal_newlines]. simpl (CR =? CR). simpl (LF =? LF).
    cbn iota. rewrite IH; [reflexivity | exact Hs].
  - cbn [app universal_newlines].
    destruct (Z.eqb_spec c CR); [contradiction|].
    rewrite IH; [reflexivity | exact Hs].
Qed.

Lemma transform_chars T x :
  In x (transform T) -> In x T \/ In x [39; 34; 38].
Proof.
  unfold transform. intros H.
  apply str_replace_chars in H; [|discriminate].
  destruct H as [H|H]; [|right; simpl in *; tauto].
  apply str_replace_chars in H; [|discriminate].
  destruct H as [H|H]; [|right; simpl in *; tauto].
  apply str_replace_chars in H; [|discriminate].
  destruct H as [H|H]; [|right; simpl in *; tauto].
  apply str_replace_chars in H; [|discriminate].
  destruct H as [H|[]]. left. exact H.
Qed.

Lemma transform_no_cr T : ~ In CR T -> ~ In CR (transform T).
Proof.
  intros H Hin. apply transform_chars in Hin.
  destruct Hin as [Hin|Hin]; [tauto|]. revert Hin. not_in.
Qed.

(** *** Lines *)

Lemma split_on_nonempty sep s : split_on sep s <> [].
Proof.
  destruct s as [|c s]; simpl; [discriminate|].
  destruct (c =? sep); [discriminate|].
  destruct (split_on sep s); discriminate.
Qed.

Lemma join_cons sep l ls :
  ls <> [] -> join sep (l :: ls) = l ++ sep ++ join sep ls.
Proof. destruct ls; [contradiction | reflexivity]. Qed.

Lemma join_split sep s : join [sep] (split_on sep s) = s.
Proof.
  induction s as [|c s IH]; [reflexivity|].
  cbn [split_on]. destruct (Z.eqb_spec c sep) as [->|Hne].
  - rewrite join_cons by apply split_on_nonempty. rewrite IH. reflexivity.
  - pose proof (split_on_nonempty sep s) as Hn.
    destruct (split_on sep s) as [|l ls]; [contradiction|].
    destruct ls as [|l' ls].
    + simpl in *. rewrite IH. reflexivity.
    + rewrite join_cons by discriminate.
      rewrite join_cons in IH by discriminate.
      simpl. rewrite <- IH. reflexivity.
Qed.

Lemma split_on_lines sep s :
  Forall (fun l => ~ In sep l /\ forall x, In x l -> In x s) (split_on sep s).
Proof.
  induction s as [|c s IH].
  - constructor; [split; [intros [] | intros x []] | constructor].
  - cbn [split_on]. destruct (Z.eqb_spec c sep) as [->|Hne].
    + constructor; [split; [intros []|intros x []]|].
      eapply List.Forall_impl; [|exact IH]. cbv beta.
      intros l [H1 H2]. split; [exact H1|]. intros x Hx. right. apply H2, Hx.
    + destruct (split_on sep s) as [|l ls].
      * constructor; [|constructor]. split; [intros [H|[]]; congruence|].
        intros x [<-|[]]. left. reflexivity.
      * inversion IH as [|? ? [H1 H2] Hls]; subst. constructor.
        -- split; [intros [H|H]; [congruence | tauto]|].
           intros x [<-|Hx]; [left; reflexivity | right; apply H2, Hx].
        -- eapply List.Forall_impl; [|exact Hls]. cbv beta.
           intros l' [H1' H2']. split; [exact H1'|].
           intros x Hx. right. apply H2', Hx.
Qed.

Lemma flat_map_crlf_line l : ~ In LF l -> flat_map crlf l = l.
Proof.
  induction l as [|c l IH]; intros H; [reflexivity|].
  cbn [flat_map]. unfold crlf at 1.
  destruct (Z.eqb_spec c LF) as [->|_]; [exfalso; apply H; left; reflexivity|].
  simpl. rewrite IH; [reflexivity|]. intros Hin. apply H. right. exact Hin.
Qed.

(** Translating the line feeds of joined lines joins them with CR LF. *)
Lemma write_translate_join ls :
  Forall (fun l => ~ In LF l) ls ->
  write_translate (join [LF] ls) = join [CR; LF] ls.
Proof.
  rewrite write_translate_flat_map.
  induction 1 as [|l ls Hl Hls IH]; [reflexivity|].
  destruct ls as [|l' ls].
  - simpl. apply flat_map_crlf_line, Hl.
  - rewrite !join_cons by discriminate.
    rewrite !flat_map_app, IH, (flat_map_crlf_line l Hl). reflexivity.
Qed.

(** ** One file *)

Lemma string_app_assoc (a b c : string) : (a +:+ b) +:+ c = a +:+ b +:+ c.
Proof.
  induction a as [|x a IH]; [reflexivity|].
  change (String x ((a +:+ b) +:+ c) = String x (a +:+ b +:+ c)).
  f_equal. exact IH.
Qed.

Lemma string_app_nil_r (a : string) : a +:+ "" = a.
Proof.
  induction a as [|x a IH]; [reflexivity|].
  change (String x (a +:+ "") = String x a). f_equal. exact IH.
Qed.

(** What is handed to the encoder is made of scalar values. *)
Lemma written_scalars raw :
  scalars raw -> scalars (write_translate (transform (universal_newlines raw))).
Proof.
  unfold scalars. rewrite !List.Forall_forall. intros H x Hx.
  rewrite write_translate_flat_map in Hx. apply in_flat_map in Hx.
  destruct Hx as (c & Hc & Hx).
  assert (Hs : is_scalar c = true).
  { apply transform_chars in Hc. destruct Hc as [Hc|Hc].
    - apply universal_newlines_chars in Hc.
      destruct Hc as [Hc| ->]; [apply H, Hc | reflexivity].
    - simpl in Hc. destruct Hc as [<-|[<-|[<-|[]]]]; reflexivity. }
  unfold crlf in Hx. destruct (c =? LF).
  - simpl in Hx. destruct Hx as [<-|[<-|[]]]; reflexivity.
  - simpl in Hx. destruct Hx as [<-|[]]. exact Hs.
Qed.

(** After a successful read the encoder cannot fail, and what it
    produces decodes to the text written. *)
Lemma fixed_bytes_decodes bs raw :
  utf8_decode bs = Some raw ->
  exists bs', fixed_bytes bs = Some bs' /\
    utf8_encode (write_translate (transform (universal_newlines raw))) = Some bs' /\
    utf8_decode bs' = Some (write_translate (transform (universal_newlines raw))).
Proof.
  intros H. unfold fixed_bytes. rewrite H.
  destruct (utf8_roundtrip _ (written_scalars raw (utf8_decode_scalar _ _ H)))
    as (bs' & He & Hd).
  exists bs'. auto.
Qed.

Section Step.

Variable describe : exn -> string.

(** The two ways through the loop body: the file is rewritten and
    reported fixed, or the [try] block raises, the disk is left as it
    was and the error is reported. *)
Lemma fix_file_cases p w :
  (exists f bs,
      disk w !! p = Some f /\ file_readable f = true /\ file_writable f = true /\
      fixed_bytes (file_bytes f) = Some bs /\
      fst (fix_body p w) = inr tt /\
      fix_file describe p w =
        (inr tt, {| disk := <[p := set_bytes bs f]> (disk w);
                    stdout := stdout w +:+ ("Fixed: " +:+ p) +:+ newline |}))
  \/
  (exists e,
      fst (fix_body p w) = inl e /\
      (fst (read_text p w) = inl e \/
       exists f, disk w !! p = Some f /\ file_writable f = false) /\
      fix_file describe p w =
        (inr tt, {| disk := disk w;
                    stdout := stdout w +:+
                      ("Error fixing " +:+ p +:+ ": " +:+ describe e) +:+ newline |})).
Proof.
  unfold fix_file, try_except, fix_body, bind, read_text, write_text.
  destruct (disk w !! p) as [f|] eqn:Hf.
  2:{ right. eexists. repeat split; [left; reflexivity]. }
  destruct (file_readable f) eqn:Hr.
  2:{ right. eexists. repeat split; [left; reflexivity]. }
  destruct (utf8_decode (file_bytes f)) as [raw|] eqn:Hd.
  2:{ right. eexists. repeat split; [left; reflexivity]. }
  cbn [disk fst snd]. rewrite Hf.
  destruct (file_writable f) eqn:Hw.
  2:{ right. eexists. repeat split. right. exists f. auto. }
  destruct (fixed_bytes_decodes _ _ Hd) as (bs & Hfb & He & _).
  rewrite He. left. exists f, bs. repeat split; assumption.
Qed.

Lemma fix_file_returns p w : fst (fix_file describe p w) = inr tt.
Proof.
  destruct (fix_file_cases p w) as [(f & bs & _ & _ & _ & _ & _ & ->)
                                   |(e & _ & _ & ->)]; reflexivity.
Qed.

(** The outcome of the [try] block depends on the file alone. *)
Lemma fix_body_outcome p w w' :
  disk w !! p = disk w' !! p -> fst (fix_body p w) = fst (fix_body p w').
Proof.
  intros H. unfold fix_body, bind, read_text, write_text. rewrite <- H.
  destruct (disk w !! p) as [f|] eqn:Hf; [|reflexivity].
  destruct (file_readable f); [|reflexivity].
  destruct (utf8_decode (file_bytes f)); [|reflexivity].
  cbn [disk]. rewrite <- H, Hf.
  destruct (file_writable f); [|reflexivity].
  destruct (utf8_encode _); reflexivity.
Qed.

Lemma read_text_outcome p w w' :
  disk w !! p = disk w' !! p -> fst (read_text p w) = fst (read_text p w').
Proof.
  intros H. unfold read_text. rewrite <- H.
  destruct (disk w !! p) as [f|]; [|reflexivity].
  destruct (file_readable f); [|reflexivity].
  destruct (utf8_decode (file_bytes f)); reflexivity.
Qed.

(** Handling one path touches no other file. *)
Lemma fix_file_other q p w :
  q <> p -> disk (snd (fix_file describe q w)) !! p = disk w !! p.
Proof.
  intros Hne.
  destruct (fix_file_cases q w) as [(f & bs & _ & _ & _ & _ & _ & ->)
                                   |(e & _ & _ & ->)]; cbn [snd disk].
  - apply lookup_insert_ne. exact Hne.
  - reflexivity.
Qed.

(** A raising [try] block leaves the whole disk as it was. *)
Lemma fix_file_fails p w :
  fails p w -> disk (snd (fix_file describe p w)) = disk w.
Proof.
  intros [e He].
  destruct (fix_file_cases p w) as [(f & bs & _ & _ & _ & _ & Hok & _)
                                   |(e' & _ & _ & ->)]; [congruence | reflexivity].
Qed.

(** Whether a path can be fixed is not changed by handling a path,
    the same one or another, first. *)
Lemma fix_body_stable q p w :
  fst (fix_body p (snd (fix_file describe q w))) = fst (fix_body p w).
Proof.
  destruct (decide (q = p)) as [->|Hne].
  2:{ apply fix_body_outcome, fix_file_other, Hne. }
  destruct (fix_file_cases p w) as [(f & bs & Hf & Hr & Hw & Hb & Hok & E)
                                   |(e & _ & _ & E)].
  2:{ apply fix_body_outcome. rewrite E. reflexivity. }
  rewrite Hok, E. cbn [snd].
  unfold fixed_bytes in Hb.
  destruct (utf8_decode (file_bytes f)) as [raw|] eqn:Hd; [|discriminate].
  destruct (fixed_bytes_decodes _ _ Hd) as (bs' & _ & He & Hd').
  assert (bs' = bs) by congruence. subst bs'.
  unfold fix_body, bind, read_text, write_text. cbn [disk].
  rewrite lookup_insert_eq. cbn [set_bytes file_readable file_writable file_bytes].
  rewrite Hr, Hd'. cbn [disk]. rewrite lookup_insert_eq.
  cbn [file_writable set_bytes]. rewrite Hw.
  destruct (fixed_bytes_decodes _ _ Hd') as (bs2 & _ & He2 & _).
  rewrite He2. reflexivity.
Qed.

End Step.

(** ** The batch *)

Section Batch.

Variable describe : exn -> string.

Lemma fails_read p w e : fst (read_text p w) = inl e -> fails p w.
Proof.
  intros H. exists e. unfold fix_body, bind.
  destruct (read_text p w) as [[e'|s] w']; simpl in *; congruence.
Qed.

Lemma fix_file_disk p w :
  disk (snd (fix_file describe p w)) = fix_disk p (disk w).
Proof.
  unfold fix_disk.
  destruct (fix_file_cases describe p w)
    as [(f & bs & Hf & Hr & Hw & Hb & _ & ->)|(e & _ & Hwhy & ->)]; cbn [snd disk].
  - rewrite Hf, Hr, Hw, Hb. reflexivity.
  - destruct Hwhy as [Hrd|(f & Hf & Hw)].
    + unfold read_text in Hrd.
      destruct (disk w !! p) as [f|]; [|reflexivity].
      destruct (file_readable f); [|reflexivity].
      destruct (utf8_decode (file_bytes f)) eqn:Hd; [discriminate|].
      unfold fixed_bytes. rewrite Hd. destruct (file_writable f); reflexivity.
    + rewrite Hf, Hw, andb_false_r. reflexivity.
Qed.

Lemma fix_file_stdout p w :
  stdout (snd (fix_file describe p w))
  = stdout w +:+ report_line describe p w +:+ newline.
Proof.
  unfold report_line.
  destruct (fix_file_cases describe p w)
    as [(f & bs & _ & _ & _ & _ & -> & ->)|(e & -> & _ & ->)]; reflexivity.
Qed.

Lemma for_each_cons p rest w :
  for_each describe (p :: rest) w
  = for_each describe rest (snd (fix_file describe p w)).
Proof.
  cbn [for_each]. unfold bind.
  pose proof (fix_file_returns describe p w) as H.
  destruct (fix_file describe p w) as [[e|[]] w']; simpl in H;
    [discriminate | reflexivity].
Qed.

Lemma for_each_returns paths w : fst (for_each describe paths w) = inr tt.
Proof.
  revert w. induction paths as [|p rest IH]; intros w; [reflexivity|].
  rewrite for_each_cons. apply IH.
Qed.

Lemma for_each_app l1 l2 w :
  for_each describe (l1 ++ l2) w
  = for_each describe l2 (snd (for_each describe l1 w)).
Proof.
  revert w. induction l1 as [|p l1 IH]; intros w; [reflexivity|].
  simpl app. rewrite !for_each_cons. apply IH.
Qed.

Lemma for_each_disk paths w :
  disk (snd (for_each describe paths w))
  = fold_left (fun d p => fix_disk p d) paths (disk w).
Proof.
  revert w. induction paths as [|p rest IH]; intros w; [reflexivity|].
  rewrite for_each_cons, IH, fix_file_disk. reflexivity.
Qed.

Lemma fix_body_stable_batch paths p w :
  fst (fix_body p (snd (for_each describe paths w))) = fst (fix_body p w).
Proof.
  revert w. induction paths as [|q rest IH]; intros w; [reflexivity|].
  rewrite for_each_cons, IH. apply fix_body_stable.
Qed.

Lemma report_line_stable paths p w :
  report_line describe p (snd (for_each describe paths w))
  = report_line describe p w.
Proof. unfold report_line. rewrite fix_body_stable_batch. reflexivity. Qed.

(** Each path is reported as it would be in the initial world. *)
Lemma report_lines_map paths w :
  report_lines describe paths w = map (fun p => report_line describe p w) paths.
Proof.
  revert w. induction paths as [|p rest IH]; intros w; [reflexivity|].
  cbn [report_lines map]. f_equal. rewrite IH.
  apply map_ext. intros q.
  pose proof (report_line_stable [p] q w) as E.
  rewrite for_each_cons in E. exact E.
Qed.

Lemma for_each_stdout paths w :
  stdout (snd (for_each describe paths w))
  = stdout w +:+ printed (report_lines describe paths w).
Proof.
  revert w. induction paths as [|p rest IH]; intros w.
  - symmetry. apply string_app_nil_r.
  - rewrite for_each_cons, IH, fix_file_stdout.
    cbn [report_lines printed]. rewrite !string_app_assoc. reflexivity.
Qed.

Lemma fix_all_unfold paths w :
  fix_all describe paths w
  = print (newline +:+ "All files processed!") (snd (for_each describe paths w)).
Proof.
  unfold fix_all, bind.
  pose proof (for_each_returns paths w) as H.
  destruct (for_each describe paths w) as [[e|[]] w']; simpl in H;
    [discriminate | reflexivity].
Qed.

Lemma fix_all_disk paths w :
  disk (snd (fix_all describe paths w)) = disk (snd (for_each describe paths w)).
Proof. rewrite fix_all_unfold. reflexivity. Qed.

Lemma fix_all_stdout paths w :
  stdout (snd (fix_all describe paths w))
  = stdout w +:+ printed (report_lines describe paths w)
    +:+ newline +:+ "All files processed!" +:+ newline.
Proof.
  rewrite fix_all_unfold. cbn [print snd stdout].
  rewrite for_each_stdout, !string_app_assoc. reflexivity.
Qed.

(** A path whose [try] block raises keeps its file through the batch. *)
Lemma fix_disk_other q p d : q <> p -> fix_disk q d !! p = d !! p.
Proof.
  intros Hne. unfold fix_disk.
  destruct (d !! q) as [f|]; [|reflexivity].
  destruct (file_readable f && file_writable f); [|reflexivity].
  destruct (fixed_bytes (file_bytes f)); [|reflexivity].
  apply lookup_insert_ne, Hne.
Qed.

Lemma for_each_fails paths p w :
  fails p w -> disk (snd (for_each describe paths w)) !! p = disk w !! p.
Proof.
  revert w. induction paths as [|q rest IH]; intros w H; [reflexivity|].
  rewrite for_each_cons, IH.
  - destruct (decide (q = p)) as [->|Hne].
    + rewrite fix_file_fails; [reflexivity | exact H].
    + rewrite fix_file_disk. apply fix_disk_other, Hne.
  - destruct H as [e He]. exists e. rewrite fix_body_stable. exact He.
Qed.

Lemma not_fails_fixable p w :
  ~ fails p w ->
  exists f bs, disk w !! p = Some f /\ file_readable f = true /\
               file_writable f = true /\ fixed_bytes (file_bytes f) = Some bs.
Proof.
  intros H.
  destruct (fix_file_cases describe p w)
    as [(f & bs & Hf & Hr & Hw & Hb & _)|(e & He & _)].
  - exists f, bs. auto.
  - exfalso. apply H. exists e. exact He.
Qed.

Lemma set_bytes_same f : set_bytes (file_bytes f) f = f.
Proof. destruct f. reflexivity. Qed.

(** A path that can be fixed holds, after the batch, what as many
    passes as it is listed leave of its bytes. *)
Lemma for_each_fixed paths p w f :
  ~ fails p w -> disk w !! p = Some f ->
  exists bs, fixed_bytes_times (count_occ string_dec paths p) (file_bytes f) = Some bs /\
             disk (snd (for_each describe paths w)) !! p = Some (set_bytes bs f).
Proof.
  revert w f. induction paths as [|q rest IH]; intros w f Hok Hf.
  - exists (file_bytes f). split; [reflexivity|].
    rewrite set_bytes_same. exact Hf.
  - rewrite for_each_cons.
    assert (Hok' : ~ fails p (snd (fix_file describe q w))).
    { intros [e He]. apply Hok. exists e. rewrite <- He.
      symmetry. apply fix_body_stable. }
    cbn [count_occ]. destruct (string_dec q p) as [->|Hne].
    + destruct (not_fails_fixable p w Hok) as (f0 & bs1 & Hf0 & Hr & Hw & Hb).
      assert (f0 = f) by congruence. subst f0.
      assert (Hf' : disk (snd (fix_file describe p w)) !! p = Some (set_bytes bs1 f)).
      { rewrite fix_file_disk. unfold fix_disk. rewrite Hf, Hr, Hw, Hb.
        apply lookup_insert_eq. }
      destruct (IH _ _ Hok' Hf') as (bs & Hn & Hd).
      exists bs. cbn [fixed_bytes_times]. rewrite Hb.
      split; [exact Hn | exact Hd].
    + apply IH; [exact Hok'|].
      rewrite fix_file_disk, fix_disk_other; [exact Hf | exact Hne].
Qed.

End Batch.

(** ** What the chain leaves of marks and entities *)

Lemma contains_false p s : contains p s = false <-> ~ occurs p s.
Proof.
  rewrite <- contains_occurs. destruct (contains p s); split; congruence.
Qed.

Lemma is_clean_spec s : is_clean s = true <-> clean s.
Proof.
  unfold is_clean, clean.
  rewrite !andb_true_iff, !negb_true_iff, !contains_false, occurs_singleton.
  tauto.
Qed.

Lemma singly_escaped_spec T :
  singly_escaped T = true <->
  forall e, In e entities -> ~ occurs (escaped e) (strip_bom T).
Proof.
  unfold singly_escaped. rewrite forallb_forall. split; intros H e He.
  - apply contains_false, negb_true_iff, H, He.
  - apply negb_true_iff, contains_false, H, He.
Qed.

(** C1, as amended.  The result never holds a byte-order mark.  An
    entity [&apos;], [&quot;] or [&amp;] can be left in it, and then only
    as the rest of an escaped entity [&amp;apos;], [&amp;quot;] or
    [&amp;amp;] of the text (its marks removed), whose ampersand the last
    rule has unescaped. *)
Theorem transform_leaves_only_unescaped (T : str) :
  ~ In BOM (transform T) /\
  forall e, In e entities ->
            occurs e (transform T) -> occurs (escaped e) (strip_bom T).
Proof.
  split; [apply transform_no_bom|].
  intros e He. apply transform_entity_escaped, He.
Qed.

Lemma transform_leaves_only_unescaped_witness :
  occurs (escaped apos) (strip_bom (lit "It&amp;apos;s")).
Proof.
  apply (proj2 (transform_leaves_only_unescaped (lit "It&amp;apos;s")) apos).
  - left. reflexivity.
  - apply contains_occurs. vm_compute. reflexivity.
Defined.

(** C1, as stated, fails: the text [&apos;&amp;apos;] holds [&apos;],
    and so does its transform ['&apos;]. *)
Lemma entity_survives_transform :
  ~ (forall T : str,
        ~ In BOM (transform T) /\
        forall e, In e entities -> occurs e T -> ~ occurs e (transform T)).
Proof.
  intros H.
  destruct (H (lit "&apos;&amp;apos;")) as [_ H'].
  apply (H' apos).
  - left. reflexivity.
  - apply contains_occurs. vm_compute. reflexivity.
  - apply contains_occurs. vm_compute. reflexivity.
Qed.

(** What the second pass over a file reads. *)
Lemma fix_disk_twice p d :
  (forall f raw, d !! p = Some f -> utf8_decode (file_bytes f) = Some raw ->
     transform (transform (universal_newlines raw))
     = transform (universal_newlines raw)) ->
  fix_disk p (fix_disk p d) = fix_disk p d.
Proof.
  intros H.
  assert (E : fix_disk p d = d \/
              exists f bs raw,
                d !! p = Some f /\ file_readable f && file_writable f = true /\
                utf8_decode (file_bytes f) = Some raw /\
                utf8_encode (write_translate (transform (universal_newlines raw)))
                = Some bs /\
                fix_disk p d = <[p := set_bytes bs f]> d).
  { unfold fix_disk, fixed_bytes.
    destruct (d !! p) as [f|] eqn:Hf; [|left; reflexivity].
    destruct (file_readable f && file_writable f) eqn:Hrw; [|left; reflexivity].
    destruct (utf8_decode (file_bytes f)) as [raw|] eqn:Hd; [|left; reflexivity].
    destruct (utf8_encode _) as [bs|] eqn:He; [|left; reflexivity].
    right. exists f, bs, raw. auto. }
  destruct E as [E|(f & bs & raw & Hf & Hrw & Hd & He & E)]; [rewrite E; exact E|].
  rewrite E. unfold fix_disk, fixed_bytes. rewrite lookup_insert_eq.
  cbn [set_bytes file_readable file_writable file_bytes]. rewrite Hrw.
  destruct (fixed_bytes_decodes _ _ Hd) as (bs' & _ & He' & Hd').
  assert (bs' = bs) by congruence. subst bs'.
  rewrite Hd'.
  rewrite universal_newlines_write
    by apply transform_no_cr, universal_newlines_no_cr.
  rewrite (H f raw Hf Hd), He.
  apply insert_insert_eq.
Qed.

(** C4, as amended.  When no entity of the text has an escaped
    ampersand, the first pass leaves no mark and no entity, a second
    transformation changes nothing, and a path listed twice leaves the
    disk as the path listed once does. *)
Theorem transform_idempotent_when_singly_escaped
    (T : str) (H : singly_escaped T = true) :
  clean (transform T) /\
  transform (transform T) = transform T /\
  forall describe p w,
    fst (read_text p w) = inr T ->
    disk (snd (for_each describe [p; p] w))
    = disk (snd (for_each describe [p] w)).
Proof.
  assert (Hc : clean (transform T)).
  { apply transform_gives_clean, singly_escaped_spec, H. }
  split; [exact Hc|]. split; [apply transform_clean, Hc|].
  intros describe p w Hr. rewrite !for_each_disk. cbn [fold_left].
  apply fix_disk_twice. intros f raw Hf Hd.
  unfold read_text in Hr. rewrite Hf in Hr.
  destruct (file_readable f).
  - rewrite Hd in Hr. cbn [fst] in Hr. injection Hr as <-.
    apply transform_clean, Hc.
  - discriminate.
Qed.

Lemma transform_idempotent_when_singly_escaped_witness :
  clean (transform (lit "It&apos;s" ++ [LF] ++ lit "ok" ++ [LF])) /\
  transform (transform (lit "It&apos;s" ++ [LF] ++ lit "ok" ++ [LF]))
  = transform (lit "It&apos;s" ++ [LF] ++ lit "ok" ++ [LF]) /\
  disk (snd (for_each sample_describe ["a.tsx"; "a.tsx"]%string three_paths_world))
  = disk (snd (for_each sample_describe ["a.tsx"]%string three_paths_world)).
Proof.
  destruct (transform_idempotent_when_singly_escaped
              (lit "It&apos;s" ++ [LF] ++ lit "ok" ++ [LF]))
    as (Hclean & Hidem & Hdisk).
  - vm_compute. reflexivity.
  - split; [exact Hclean|]. split; [exact Hidem|].
    apply Hdisk. vm_compute. reflexivity.
Defined.

(** C4, as stated, fails: [&amp;amp;] becomes [&amp;], which a second
    pass turns into [&]. *)
Lemma transform_not_idempotent :
  ~ (forall T : str, transform (transform T) = transform T).
Proof.
  intros H. specialize (H (lit "&amp;amp;")). vm_compute in H. discriminate H.
Qed.

(** Reading a file again after its pass. *)
Lemma fix_file_reread describe p w T :
  fst (read_text p w) = inr T ->
  fst (read_text p (snd (fix_file describe p w))) = inr T \/
  fst (read_text p (snd (fix_file describe p w))) = inr (transform T).
Proof.
  intros Hr.
  destruct (fix_file_cases describe p w)
    as [(f & bs & Hf & Hrd & Hw & Hb & _ & E)|(e & _ & _ & E)].
  - right. rewrite E. cbn [snd]. unfold read_text in *. cbn [disk].
    rewrite lookup_insert_eq. rewrite Hf, Hrd in Hr.
    cbn [set_bytes file_readable file_bytes]. rewrite Hrd.
    destruct (utf8_decode (file_bytes f)) as [raw|] eqn:Hd; [|discriminate].
    cbn [fst] in Hr. injection Hr as <-.
    destruct (fixed_bytes_decodes _ _ Hd) as (bs' & Hb' & _ & Hd').
    assert (bs' = bs) by congruence. subst bs'.
    rewrite Hd'. cbn [fst]. f_equal.
    apply universal_newlines_write, transform_no_cr, universal_newlines_no_cr.
  - left. rewrite <- Hr. apply read_text_outcome. rewrite E. reflexivity.
Qed.

(** C5.  A text with no byte-order mark and none of the three entities
    is returned as it is; the file is still rewritten, with its
    terminators normalised, and read again it gives the same text. *)
Theorem transform_clean_identity (T : str) (H : clean T) :
  transform T = T /\
  forall describe p w,
    fst (read_text p w) = inr T ->
    fst (read_text p (snd (fix_file describe p w))) = inr T.
Proof.
  split; [apply transform_clean, H|].
  intros describe p w Hr.
  destruct (fix_file_reread describe p w T Hr) as [E|E]; [exact E|].
  rewrite E, (transform_clean T H). reflexivity.
Qed.

Lemma transform_clean_identity_witness :
  transform (lit "plain" ++ [LF] ++ lit "text") = lit "plain" ++ [LF] ++ lit "text" /\
  fst (read_text "plain.txt"
         (snd (fix_file sample_describe "plain.txt"
                 {| disk := {[ "plain.txt"%string :=
                                 File (lit "plain" ++ [CR; LF] ++ lit "text") true true ]};
                    stdout := "" |})))
  = inr (lit "plain" ++ [LF] ++ lit "text").
Proof.
  destruct (transform_clean_identity (lit "plain" ++ [LF] ++ lit "text"))
    as (Hid & Hread).
  - apply is_clean_spec. vm_compute. reflexivity.
  - split; [exact Hid|]. apply Hread. vm_compute. reflexivity.
Defined.

(** C9.  Every rule puts a shorter text in the place of its pattern,
    so the result is never longer than the text. *)
Theorem transform_length (T : str) :
  (length (transform T) <= length T)%nat /\
  (length (@nil Z) < length [BOM])%nat /\
  (length apos = 6 /\ length quot = 6 /\ length amp = 5)%nat /\
  (length (lit "'") = 1 /\ length [34] = 1 /\ length (lit "&") = 1)%nat.
Proof.
  split; [|repeat split; simpl; lia].
  unfold transform.
  eapply Nat.le_trans; [apply str_replace_length; [discriminate | simpl; lia]|].
  eapply Nat.le_trans; [apply str_replace_length; [discriminate | simpl; lia]|].
  eapply Nat.le_trans; [apply str_replace_length; [discriminate | simpl; lia]|].
  apply str_replace_length; [discriminate | simpl; lia].
Qed.

(** ** The order of the rules *)

Lemma rules_NoDup : List.NoDup rules.
Proof.
  unfold rules.
  repeat (apply List.NoDup_cons;
          [simpl; intros H; repeat destruct H as [H|H];
           try discriminate H; contradiction|]).
  apply List.NoDup_nil.
Qed.

Ltac refute_order H t :=
  let E := fresh "E" in
  pose proof (H t) as E; vm_compute in E; discriminate E.

(** C6.  The chain of the script is the rule list in the order
    byte-order mark, [&apos;], [&quot;], [&amp;], and the order shows in
    what it computes: a reordering of the four rules that computes the
    same function still removes the mark first and unescapes [&amp;]
    last. *)
Theorem rules_applied_in_order
    (rs : list rule)
    (Hperm : Permutation rs rules)
    (Hsame : forall T, apply_rules rs T = transform T) :
  (forall T, transform T = apply_rules rules T) /\
  head rs = Some bom_rule /\
  last rs = Some amp_rule /\
  (rs = [bom_rule; apos_rule; quot_rule; amp_rule] \/
   rs = [bom_rule; quot_rule; apos_rule; amp_rule]).
Proof.
  split; [reflexivity|].
  pose proof (Permutation_length Hperm) as Hlen.
  destruct rs as [|a [|b [|c [|d [|]]]]]; try discriminate Hlen.
  assert (Hin : forall r, In r [a; b; c; d] -> In r rules)
    by (intros r; apply Permutation_in, Hperm).
  assert (Hnd : List.NoDup [a; b; c; d])
    by (eapply Permutation_NoDup; [symmetry; exact Hperm | exact rules_NoDup]).
  assert (Hab : a <> b /\ a <> c /\ a <> d /\ b <> c /\ b <> d /\ c <> d).
  { inversion Hnd as [|? ? Ha Hnd1]; subst.
    inversion Hnd1 as [|? ? Hb Hnd2]; subst.
    inversion Hnd2 as [|? ? Hc _]; subst.
    simpl in Ha, Hb, Hc. repeat split; intros ->; tauto. }
  destruct Hab as (Hab & Hac & Had & Hbc & Hbd & Hcd).
  pose proof (Hin a ltac:(simpl; tauto)) as Ha.
  pose proof (Hin b ltac:(simpl; tauto)) as Hb.
  pose proof (Hin c ltac:(simpl; tauto)) as Hc.
  pose proof (Hin d ltac:(simpl; tauto)) as Hd.
  clear Hin Hnd Hperm Hlen. unfold rules in *. simpl in Ha, Hb, Hc, Hd.
  destruct Ha as [<-|[<-|[<-|[<-|[]]]]];
    destruct Hb as [<-|[<-|[<-|[<-|[]]]]]; try contradiction;
    destruct Hc as [<-|[<-|[<-|[<-|[]]]]]; try contradiction;
    destruct Hd as [<-|[<-|[<-|[<-|[]]]]]; try contradiction;
    first
      [ repeat split; solve [reflexivity | left; reflexivity | right; reflexivity]
      | exfalso;
        first
          [ refute_order Hsame (lit "&a" ++ BOM :: lit "pos;")
          | refute_order Hsame (lit "&q" ++ BOM :: lit "uot;")
          | refute_order Hsame (lit "&a" ++ BOM :: lit "mp;")
          | refute_order Hsame (lit "&amp;apos;")
          | refute_order Hsame (lit "&amp;quot;") ] ].
Qed.

Lemma rules_applied_in_order_witness :
  (forall T, transform T = apply_rules rules T) /\
  head rules = Some bom_rule /\
  last rules = Some amp_rule /\
  (rules = [bom_rule; apos_rule; quot_rule; amp_rule] \/
   rules = [bom_rule; quot_rule; apos_rule; amp_rule]).
Proof.
  apply (rules_applied_in_order rules).
  - reflexivity.
  - intros T. reflexivity.
Defined.

(** ** The file written *)

(** C7.  The scenario: the mark goes, the three entities are
    unescaped, and the file written ends its line with CR LF. *)
Theorem scenario_file_fixed describe :
  transform (BOM :: lit "<p>It&apos;s &quot;ready&quot; &amp; done.</p>")
  = lit "<p>It's " ++ [34] ++ lit "ready" ++ [34] ++ lit " & done.</p>" /\
  fst (read_text scenario_path scenario_world)
  = inr (BOM :: lit "<p>It&apos;s &quot;ready&quot; &amp; done.</p>" ++ [LF]) /\
  fix_file describe scenario_path scenario_world
  = (inr tt,
     {| disk := {[ scenario_path :=
                     File (lit "<p>It's " ++ [34] ++ lit "ready" ++ [34]
                           ++ lit " & done.</p>" ++ [CR; LF]) true true ]};
        stdout := "Fixed: " +:+ scenario_path +:+ newline |}).
Proof.
  repeat split; vm_compute; reflexivity.
Qed.

(** C2.  Whatever terminators the file had, the text of a file that is
    fixed splits into lines holding neither CR nor LF, and the bytes
    written are the encoding of these lines joined by CR LF. *)
Theorem rewritten_with_crlf
    describe (p : string) (w : world) (f : file) (raw : str)
    (Hf : disk w !! p = Some f)
    (Hd : utf8_decode (file_bytes f) = Some raw)
    (Hok : fst (fix_body p w) = inr tt) :
  let content := transform (universal_newlines raw) in
  let lines := split_on LF content in
  Forall (fun l => ~ In CR l /\ ~ In LF l) lines /\
  content = join [LF] lines /\
  exists bs,
    utf8_encode (join [CR; LF] lines) = Some bs /\
    utf8_decode bs = Some (join [CR; LF] lines) /\
    disk (snd (fix_file describe p w)) !! p = Some (set_bytes bs f).
Proof.
  intros content lines.
  assert (Hlines : Forall (fun l => ~ In CR l /\ ~ In LF l) lines).
  { eapply List.Forall_impl; [|apply split_on_lines]. cbv beta.
    intros l [Hlf Hin]. split; [|exact Hlf].
    intros Hcr. apply Hin in Hcr. revert Hcr.
    apply transform_no_cr, universal_newlines_no_cr. }
  assert (Hjoin : content = join [LF] lines)
    by (symmetry; apply join_split).
  split; [exact Hlines|]. split; [exact Hjoin|].
  destruct (fixed_bytes_decodes _ _ Hd) as (bs & Hb & He & Hd').
  fold content in He, Hd'.
  assert (Hw : write_translate content = join [CR; LF] lines).
  { rewrite Hjoin at 1. apply write_translate_join.
    eapply List.Forall_impl; [|exact Hlines]. cbv beta. tauto. }
  rewrite Hw in He, Hd'.
  exists bs. split; [exact He|]. split; [exact Hd'|].
  destruct (fix_file_cases describe p w)
    as [(f' & bs' & Hf' & _ & _ & Hb' & _ & E)|(e & He' & _)]; [|congruence].
  rewrite E. cbn [snd disk]. rewrite lookup_insert_eq.
  congruence.
Qed.

Lemma rewritten_with_crlf_witness :
  let content := transform (universal_newlines
                   (lit "It&apos;s" ++ [CR; LF] ++ lit "ok" ++ [LF])) in
  let lines := split_on LF content in
  Forall (fun l => ~ In CR l /\ ~ In LF l) lines /\
  content = join [LF] lines /\
  exists bs,
    utf8_encode (join [CR; LF] lines) = Some bs /\
    utf8_decode bs = Some (join [CR; LF] lines) /\
    disk (snd (fix_file sample_describe "a.tsx" three_paths_world)) !! "a.tsx"
    = Some (set_bytes bs
              (File (lit "It&apos;s" ++ [CR; LF] ++ lit "ok" ++ [LF]) true true)).
Proof.
  apply (rewritten_with_crlf sample_describe "a.tsx" three_paths_world
           (File (lit "It&apos;s" ++ [CR; LF] ++ lit "ok" ++ [LF]) true true)
           (lit "It&apos;s" ++ [CR; LF] ++ lit "ok" ++ [LF]));
    vm_compute; reflexivity.
Defined.

(** ** Failures *)

(** C10.  When the read raises, the [try] block ends there with the
    world untouched: the pass leaves the whole disk as it was, and the
    file is the same after the whole batch. *)
Theorem read_error_leaves_file
    describe (paths : list string) (p : string) (w : world) (e : exn)
    (H : fst (read_text p w) = inl e) :
  fix_body p w = (inl e, w) /\
  disk (snd (fix_file describe p w)) = disk w /\
  disk (snd (fix_all describe paths w)) !! p = disk w !! p.
Proof.
  assert (Hb : fix_body p w = (inl e, w)).
  { unfold fix_body, bind. unfold read_text in *.
    destruct (disk w !! p) as [f|]; [|cbn [fst] in H; congruence].
    destruct (file_readable f); [|cbn [fst] in H; congruence].
    destruct (utf8_decode (file_bytes f)); [discriminate|].
    cbn [fst] in H. congruence. }
  assert (Hfail : fails p w) by (exists e; rewrite Hb; reflexivity).
  split; [exact Hb|]. split.
  - apply fix_file_fails, Hfail.
  - rewrite fix_all_disk. apply for_each_fails, Hfail.
Qed.

Lemma read_error_leaves_file_witness :
  fix_body "b.tsx" three_paths_world
  = (inl (FileNotFoundError "b.tsx"), three_paths_world) /\
  disk (snd (fix_file sample_describe "b.tsx" three_paths_world))
  = disk three_paths_world /\
  disk (snd (fix_all sample_describe ["a.tsx"; "b.tsx"; "c.tsx"]%string
               three_paths_world)) !! "b.tsx"
  = disk three_paths_world !! "b.tsx".
Proof.
  apply (read_error_leaves_file sample_describe ["a.tsx"; "b.tsx"; "c.tsx"]%string
           "b.tsx" three_paths_world (FileNotFoundError "b.tsx")).
  vm_compute. reflexivity.
Defined.

(** ** The report *)

Lemma has_newline_app a b :
  has_newline (a +:+ b) = has_newline a || has_newline b.
Proof.
  induction a as [|c a IH]; [reflexivity|].
  change (has_newline (String c (a +:+ b))
          = has_newline (String c a) || has_newline b).
  cbn [has_newline]. rewrite IH, orb_assoc. reflexivity.
Qed.

Section Report.

Variable describe : exn -> string.

Lemma report_line_cases p w :
  (fst (fix_body p w) = inr tt /\ report_line describe p w = fixed_line p) \/
  (exists e, fst (fix_body p w) = inl e /\
             report_line describe p w = error_line describe p e).
Proof.
  unfold report_line.
  destruct (fst (fix_body p w)) as [e|[]].
  - right. exists e. split; reflexivity.
  - left. split; reflexivity.
Qed.

Lemma report_line_not_completion p w : report_line describe p w <> completion.
Proof.
  destruct (report_line_cases p w) as [[_ ->]|(e & _ & ->)]; discriminate.
Qed.

Lemma report_lines_fixed paths w :
  (forall p, In p paths -> ~ fails p w) ->
  report_lines describe paths w = map fixed_line paths.
Proof.
  intros H. rewrite report_lines_map. apply map_ext_in. intros p Hp.
  destruct (report_line_cases p w) as [[_ E]|(e & He & _)]; [exact E|].
  exfalso. apply (H p Hp). exists e. exact He.
Qed.

Lemma printed_app ls ls' : printed (ls ++ ls') = printed ls +:+ printed ls'.
Proof.
  induction ls as [|l ls IH]; [reflexivity|].
  cbn [printed app]. rewrite !string_app_assoc, IH. reflexivity.
Qed.

(** The whole output: the report lines, an empty line, the completion
    line. *)
Lemma fix_all_stdout_lines paths w :
  stdout (snd (fix_all describe paths w))
  = stdout w +:+ printed (report_lines describe paths w ++ [""; completion]).
Proof. rewrite fix_all_stdout, printed_app. reflexivity. Qed.

(** C8.  What the batch prints: for every listed path, in order, one
    line, [Fixed: <path>] when its [try] block succeeds and
    [Error fixing <path>: <message>] when it raises; then an empty line
    and the completion line, which no other line equals.
    When neither the paths nor the messages of the exceptions raised
    hold a line feed, every one of these is a single line of the
    output. *)
Theorem report_one_line_per_file (paths : list string) (w : world) :
  let lines := report_lines describe paths w in
  fst (fix_all describe paths w) = inr tt /\
  stdout (snd (fix_all describe paths w))
  = stdout w +:+ printed (lines ++ [""; completion]) /\
  Forall2 (fun p l =>
             (fst (fix_body p w) = inr tt /\ l = fixed_line p) \/
             (exists e, fst (fix_body p w) = inl e /\ l = error_line describe p e))
          paths lines /\
  count_occ string_dec (lines ++ [""; completion]) completion = 1%nat /\
  ((forall p, In p paths -> has_newline p = false) ->
   (forall p e, In p paths -> fst (fix_body p w) = inl e ->
                has_newline (describe e) = false) ->
   Forall (fun l => has_newline l = false) (lines ++ [""; completion])).
Proof.
  intros lines. subst lines. split; [|split; [|split; [|split]]].
  - rewrite fix_all_unfold. reflexivity.
  - apply fix_all_stdout_lines.
  - rewrite report_lines_map.
    induction paths as [|p rest IH]; constructor; [|exact IH].
    apply report_line_cases.
  - rewrite report_lines_map, count_occ_app.
    rewrite (proj1 (count_occ_not_In string_dec _ completion)); [reflexivity|].
    intros Hin. apply in_map_iff in Hin. destruct Hin as (p & E & _).
    revert E. apply report_line_not_completion.
  - intros Hp He. apply Forall_app. split.
    + rewrite report_lines_map. apply List.Forall_forall. intros l Hl.
      apply in_map_iff in Hl. destruct Hl as (p & <- & Hin).
      destruct (report_line_cases p w) as [[_ ->]|(e & Hraise & ->)];
        unfold fixed_line, error_line;
        rewrite ?has_newline_app, (Hp p Hin), ?(He p e Hin Hraise); reflexivity.
    + repeat constructor.
Qed.

(** C3.  One path of the list fails and every other can be fixed.
    The batch runs to its end; the disk is what the batch without the
    failing path leaves, the failing file being as it was; every other
    file holds what as many passes as it is listed leave of its bytes;
    the failing path alone is reported as an error, at its place. *)
Theorem one_failure_isolated
    (l1 l2 : list string) (pk : string) (w : world)
    (Hk : fails pk w)
    (Hothers : forall p, In p (l1 ++ l2) -> ~ fails p w) :
  let w' := snd (fix_all describe (l1 ++ pk :: l2) w) in
  fst (fix_all describe (l1 ++ pk :: l2) w) = inr tt /\
  disk w' = disk (snd (fix_all describe (l1 ++ l2) w)) /\
  disk w' !! pk = disk w !! pk /\
  (forall p, In p (l1 ++ l2) ->
     exists f bs,
       disk w !! p = Some f /\
       fixed_bytes_times (count_occ string_dec (l1 ++ l2) p) (file_bytes f)
       = Some bs /\
       disk w' !! p = Some (set_bytes bs f)) /\
  exists e,
    fst (fix_body pk w) = inl e /\
    report_lines describe (l1 ++ pk :: l2) w
    = map fixed_line l1 ++ error_line describe pk e :: map fixed_line l2 /\
    stdout w'
    = stdout w
      +:+ printed (map fixed_line l1 ++ error_line describe pk e
                   :: map fixed_line l2 ++ [""; completion]).
Proof.
  intros w'. subst w'.
  assert (Hdisk : disk (snd (fix_all describe (l1 ++ pk :: l2) w))
                  = disk (snd (fix_all describe (l1 ++ l2) w))).
  { rewrite !fix_all_disk, !for_each_app, for_each_cons.
    assert (Hk1 : fails pk (snd (for_each describe l1 w))).
    { destruct Hk as [e He]. exists e.
      rewrite fix_body_stable_batch. exact He. }
    revert Hk1. generalize (snd (for_each describe l1 w)). intros w1 Hk1.
    rewrite (for_each_disk describe l2 w1), for_each_disk. f_equal.
    apply fix_file_fails, Hk1. }
  split; [rewrite fix_all_unfold; reflexivity|].
  split; [exact Hdisk|]. split.
  { rewrite fix_all_disk. apply for_each_fails, Hk. }
  split.
  { intros p Hp. rewrite Hdisk, fix_all_disk.
    destruct (not_fails_fixable describe p w (Hothers p Hp))
      as (f & bs0 & Hf & _).
    destruct (for_each_fixed describe (l1 ++ l2) p w f (Hothers p Hp) Hf)
      as (bs & Hn & Hl).
    exists f, bs. auto. }
  destruct Hk as [e He]. exists e. split; [exact He|].
  assert (Hlines : report_lines describe (l1 ++ pk :: l2) w
                   = map fixed_line l1 ++ error_line describe pk e
                     :: map fixed_line l2).
  { rewrite report_lines_map, map_app. cbn [map]. f_equal; [|f_equal].
    - rewrite <- report_lines_map. apply report_lines_fixed.
      intros p Hp. apply Hothers, in_or_app. left. exact Hp.
    - unfold report_line. rewrite He. reflexivity.
    - rewrite <- report_lines_map. apply report_lines_fixed.
      intros p Hp. apply Hothers, in_or_app. right. exact Hp. }
  split; [exact Hlines|].
  rewrite fix_all_stdout_lines, Hlines, <- app_assoc. reflexivity.
Qed.

End Report.

Lemma report_one_line_per_file_witness :
  Forall (fun l => has_newline l = false)
    (report_lines sample_describe ["a.tsx"; "b.tsx"; "c.tsx"]%string three_paths_world
     ++ [""%string; completion]).
Proof.
  apply (report_one_line_per_file sample_describe
           ["a.tsx"; "b.tsx"; "c.tsx"]%string three_paths_world).
  - intros p Hp. simpl in Hp.
    destruct Hp as [<-|[<-|[<-|[]]]]; reflexivity.
  - intros p e Hp. simpl in Hp.
    destruct Hp as [<-|[<-|[<-|[]]]]; vm_compute; intros [= <-]; reflexivity.
Defined.

Lemma one_failure_isolated_witness :
  let w' := snd (fix_all sample_describe ["a.tsx"; "b.tsx"; "c.tsx"]%string
                   three_paths_world) in
  fst (fix_all sample_describe ["a.tsx"; "b.tsx"; "c.tsx"]%string three_paths_world)
  = inr tt /\
  disk w' = disk (snd (fix_all sample_describe ["a.tsx"; "c.tsx"]%string
                         three_paths_world)) /\
  disk w' !! "b.tsx" = disk three_paths_world !! "b.tsx" /\
  (forall p, In p ["a.tsx"; "c.tsx"]%string ->
     exists f bs,
       disk three_paths_world !! p = Some f /\
       fixed_bytes_times (count_occ string_dec ["a.tsx"; "c.tsx"]%string p)
         (file_bytes f) = Some bs /\
       disk w' !! p = Some (set_bytes bs f)) /\
  exists e,
    fst (fix_body "b.tsx" three_paths_world) = inl e /\
    report_lines sample_describe ["a.tsx"; "b.tsx"; "c.tsx"]%string three_paths_world
    = map fixed_line ["a.tsx"]%string
      ++ error_line sample_describe "b.tsx" e :: map fixed_line ["c.tsx"]%string /\
    stdout w'
    = stdout three_paths_world
      +:+ printed (map fixed_line ["a.tsx"]%string
                   ++ error_line sample_describe "b.tsx" e
                   :: map fixed_line ["c.tsx"]%string ++ [""%string; completion]).
Proof.
  apply (one_failure_isolated sample_describe ["a.tsx"]%string ["c.tsx"]%string
           "b.tsx" three_paths_world).
  - exists (FileNotFoundError "b.tsx"). vm_compute. reflexivity.
  - intros p Hp [e He]. simpl in Hp.
    destruct Hp as [<-|[<-|[]]]; vm_compute in He; discriminate He.
Defined.

(** The script itself, with none of its ten files on the disk: ten
    errors are reported, nothing is created. *)
Example main_on_empty_disk :
  let w := {| disk := ∅; stdout := "" |} in
  fst (main sample_describe w) = inr tt /\
  disk (snd (main sample_describe w)) = ∅ /\
  length (report_lines sample_describe files_to_fix w) = 10%nat /\
  nth 8 (report_lines sample_describe files_to_fix w) ""
  = ("Error fixing src\components\ErrorBoundary.tsx: "
     +:+ "[Errno 2] No such file or directory: "
     +:+ "'src\\components\\ErrorBoundary.tsx'")%string.
Proof. repeat split; vm_compute; reflexivity. Qed.

(** * Further properties of the script *)

(** ** The scan around characters foreign to the pattern *)

(** A run that starts before a character foreign to it ends before it. *)
Lemma startswith_before p a c b :
  ~ In c p -> startswith p (a ++ c :: b) = true -> startswith p a = true.
Proof.
  revert a. induction p as [|x p IH]; intros a Hc H; [destruct a; reflexivity|].
  destruct a as [|y a].
  - simpl in H. apply andb_prop in H. destruct H as [H _].
    apply Z.eqb_eq in H. exfalso. apply Hc. left. exact H.
  - simpl in *. apply andb_prop in H. destruct H as [H1 H2].
    rewrite H1. simpl. apply IH; [|exact H2].
    intros Hin. apply Hc. right. exact Hin.
Qed.

(** No run starts at a character foreign to it. *)
Lemma startswith_foreign p q s : p <> [] -> ~ In q p -> startswith p (q :: s) = false.
Proof.
  intros Hp Hq. destruct p as [|x p]; [contradiction|]. cbn [startswith].
  destruct (Z.eqb_spec x q) as [->|_]; [|reflexivity].
  exfalso. apply Hq. left. reflexivity.
Qed.

Section ReplaceAround.

Variables old new : str.
Hypothesis old_nonempty : old <> [].

(** A character foreign to the pattern cuts the scan in two. *)
Lemma str_replace_sep a c b :
  ~ In c old ->
  str_replace (a ++ c :: b) old new
  = str_replace a old new ++ c :: str_replace b old new.
Proof.
  intros Hc.
  apply (str_replace_ind old new old_nonempty
           (fun a o => str_replace (a ++ c :: b) old new
                       = o ++ c :: str_replace b old new)).
  - simpl. apply str_replace_copy; [exact old_nonempty|].
    apply startswith_foreign; assumption.
  - intros r IH. rewrite <- !app_assoc.
    rewrite str_replace_match by exact old_nonempty. rewrite IH. reflexivity.
  - intros x s Hs IH. simpl. rewrite str_replace_copy; [|exact old_nonempty|].
    + rewrite IH. reflexivity.
    + destruct (startswith old (x :: s ++ c :: b)) eqn:E; [|reflexivity].
      apply (startswith_before old (x :: s) c b Hc) in E. congruence.
Qed.

(** The characters that are neither in the pattern nor in the
    replacement pass through, in their order. *)
Lemma str_replace_filter (keep : Z -> bool) s :
  Forall (fun x => keep x = false) old ->
  Forall (fun x => keep x = false) new ->
  List.filter keep (str_replace s old new) = List.filter keep s.
Proof.
  intros Ho Hn.
  assert (F : forall l, Forall (fun x => keep x = false) l -> List.filter keep l = []).
  { induction 1 as [|x l Hx _ IH]; [reflexivity|]. simpl. rewrite Hx. exact IH. }
  apply (str_replace_ind old new old_nonempty
           (fun s o => List.filter keep o = List.filter keep s)).
  - reflexivity.
  - intros r IH. rewrite !List.filter_app, (F _ Ho), (F _ Hn). exact IH.
  - intros c s' _ IH. simpl. rewrite IH. reflexivity.
Qed.

(** When the first character of the pattern is not repeated in it, a
    text starting with that character is scanned from its start
    whatever precedes it. *)
Lemma str_replace_app_head q0 old' l y :
  old = q0 :: old' -> ~ In q0 old' ->
  str_replace (l ++ q0 :: y) old new
  = str_replace l old new ++ str_replace (q0 :: y) old new.
Proof.
  intros Eo Hq.
  apply (str_replace_ind old new old_nonempty
           (fun l o => str_replace (l ++ q0 :: y) old new
                       = o ++ str_replace (q0 :: y) old new)).
  - reflexivity.
  - intros r IH. rewrite <- !app_assoc.
    rewrite str_replace_match by exact old_nonempty. rewrite IH. reflexivity.
  - intros x s Hs IH. simpl. rewrite str_replace_copy; [|exact old_nonempty|].
    + rewrite IH. reflexivity.
    + destruct (startswith old (x :: s ++ q0 :: y)) eqn:E; [|reflexivity].
      rewrite Eo in E, Hs. cbn [startswith] in E, Hs.
      apply andb_prop in E. destruct E as [E1 E2].
      apply (startswith_before old' s q0 y Hq) in E2.
      rewrite E1, E2 in Hs. discriminate.
Qed.

(** The scan copies a run none of whose characters starts the pattern. *)
Lemma str_replace_skip k r :
  ~ In (hd 0 old) k ->
  str_replace (k ++ r) old new = k ++ str_replace r old new.
Proof.
  induction k as [|c k IH]; intros Hk; [reflexivity|].
  cbn [app]. rewrite str_replace_copy; [|exact old_nonempty|].
  - rewrite IH; [reflexivity|]. intros H. apply Hk. right. exact H.
  - destruct old as [|x p]; [contradiction|]. cbn [startswith].
    destruct (Z.eqb_spec x c) as [->|_]; [|reflexivity].
    exfalso. apply Hk. left. reflexivity.
Qed.

End ReplaceAround.

(** Replacing a single character works character by character. *)
Lemma str_replace_char b new s :
  str_replace s [b] new = flat_map (fun c => if c =? b then new else [c]) s.
Proof.
  apply (str_replace_ind [b] new ltac:(discriminate)
           (fun s o => o = flat_map (fun c => if c =? b then new else [c]) s)).
  - reflexivity.
  - intros r IH. cbn [app flat_map]. rewrite Z.eqb_refl, <- IH. reflexivity.
  - intros c s' Hs IH. cbn [startswith] in Hs. rewrite andb_true_r in Hs.
    cbn [flat_map]. rewrite Z.eqb_sym, Hs, <- IH. reflexivity.
Qed.

Lemma strip_bom_app a b : strip_bom (a ++ b) = strip_bom a ++ strip_bom b.
Proof. unfold strip_bom. rewrite !str_replace_char. apply flat_map_app. Qed.

Lemma strip_bom_mark a b : strip_bom (a ++ BOM :: b) = strip_bom (a ++ b).
Proof. rewrite !strip_bom_app. reflexivity. Qed.

(** ** Two passes exchanged *)

Section ReplaceTwo.

Variables p1 p2 : str.
Variables q1 q2 : Z.
Hypothesis p1_nonempty : p1 <> [].
Hypothesis p2_nonempty : p2 <> [].
Hypothesis q1_foreign : ~ In q1 p2.
Hypothesis q2_foreign : ~ In q2 p1.
Hypothesis p2_skips_p1 :
  forall r, str_replace (p1 ++ r) p2 [q2] = p1 ++ str_replace r p2 [q2].
Hypothesis p1_skips_p2 :
  forall r, str_replace (p2 ++ r) p1 [q1] = p2 ++ str_replace r p1 [q1].

(** Two passes whose patterns cannot overlap, each writing a character
    foreign to the pattern of the other, can be exchanged. *)
Lemma str_replace_exchange s :
  str_replace (str_replace s p1 [q1]) p2 [q2]
  = str_replace (str_replace s p2 [q2]) p1 [q1].
Proof.
  remember (length s) as n eqn:Hn. revert s Hn.
  induction n as [n IH] using (well_founded_induction Nat.lt_wf_0).
  intros [|c s] Hn.
  - rewrite !str_replace_nil by assumption. reflexivity.
  - destruct (startswith p1 (c :: s)) eqn:H1; [|destruct (startswith p2 (c :: s)) eqn:H2].
    + apply startswith_inv in H1. destruct H1 as [r Hr]. rewrite Hr.
      rewrite p2_skips_p1, !str_replace_match by assumption.
      cbn [app]. rewrite str_replace_copy
        by (try assumption; apply startswith_foreign; assumption).
      f_equal. apply (IH (length r)); [|reflexivity].
      subst n. rewrite Hr, length_app. destruct p1; [contradiction | simpl; lia].
    + apply startswith_inv in H2. destruct H2 as [r Hr]. rewrite Hr.
      rewrite p1_skips_p2, !str_replace_match by assumption.
      cbn [app]. rewrite str_replace_copy
        by (try assumption; apply startswith_foreign; assumption).
      f_equal. apply (IH (length r)); [|reflexivity].
      subst n. rewrite Hr, length_app. destruct p2; [contradiction | simpl; lia].
    + rewrite (str_replace_copy p1 [q1] p1_nonempty c s H1).
      rewrite (str_replace_copy p2 [q2] p2_nonempty c s H2).
      rewrite !str_replace_copy; try assumption.
      * f_equal. apply (IH (length s)); [subst n; simpl; lia | reflexivity].
      * destruct (startswith p1 (c :: str_replace s p2 [q2])) eqn:E; [|reflexivity].
        rewrite <- (str_replace_copy p2 [q2] p2_nonempty c s H2) in E.
        apply (replace_char_startswith p2 q2 p2_nonempty) in E; [congruence | assumption].
      * destruct (startswith p2 (c :: str_replace s p1 [q1])) eqn:E; [|reflexivity].
        rewrite <- (str_replace_copy p1 [q1] p1_nonempty c s H1) in E.
        apply (replace_char_startswith p1 q1 p1_nonempty) in E; [congruence | assumption].
Qed.

End ReplaceTwo.

Lemma quot_skips_apos r :
  str_replace (apos ++ r) quot [34] = apos ++ str_replace r quot [34].
Proof.
  change (apos ++ r) with (38 :: lit "apos;" ++ r).
  rewrite str_replace_copy by (discriminate || reflexivity).
  rewrite str_replace_skip; [reflexivity | discriminate | not_in].
Qed.

Lemma apos_skips_quot r :
  str_replace (quot ++ r) apos (lit "'") = quot ++ str_replace r apos (lit "'").
Proof.
  change (quot ++ r) with (38 :: lit "quot;" ++ r).
  rewrite str_replace_copy by (discriminate || reflexivity).
  rewrite str_replace_skip; [reflexivity | discriminate | not_in].
Qed.

(** ** The chain, further *)

(** X1.  The first rule removes a byte-order mark wherever it stands,
    not only at the head of the text: the result is that of the text
    without it, so that an entity the mark interrupts is unescaped. *)
Theorem mark_removed_anywhere (a b : str) :
  transform (a ++ BOM :: b) = transform (a ++ b).
Proof.
  unfold transform. fold (strip_bom (a ++ BOM :: b)) (strip_bom (a ++ b)).
  rewrite strip_bom_mark. reflexivity.
Qed.

(** X2.  The rules for [&apos;] and [&quot;] can be exchanged: the
    chain with [&quot;] handled before [&apos;] computes the same
    text. *)
Theorem quote_rules_exchange (T : str) : apply_rules quot_first T = transform T.
Proof.
  unfold apply_rules, quot_first, transform. cbn [fold_left].
  unfold apply_rule, bom_rule, quot_rule, apos_rule, amp_rule. cbn [fst snd].
  f_equal.
  apply (str_replace_exchange quot apos 34 39
           ltac:(discriminate) ltac:(discriminate) ltac:(not_in) ltac:(not_in)
           apos_skips_quot quot_skips_apos).
Qed.

(** An escaped entity passes the two quote rules. *)
Lemma escaped_through (old new : str) e s :
  In old [apos; quot] -> In e entities ->
  occurs (escaped e) s -> occurs (escaped e) (str_replace s old new).
Proof.
  intros Ho He (l & r & ->).
  assert (E : exists old', old = 38 :: old' /\ ~ In 38 old' /\ hd 0 old = 38).
  { destruct Ho as [<-|[<-|[]]]; eexists; (split; [reflexivity|]);
      (split; [not_in | reflexivity]). }
  destruct E as (old' & Eo & Hq & Hh).
  assert (Hne : old <> []) by (rewrite Eo; discriminate).
  assert (Ee : exists t, escaped e = 38 :: t /\ ~ In 38 t).
  { destruct He as [<-|[<-|[<-|[]]]]; eexists; (split; [reflexivity|]); not_in. }
  destruct Ee as (t & Et & Ht). rewrite Et. cbn [app].
  rewrite (str_replace_app_head old new Hne 38 old' l (t ++ r) Eo Hq).
  apply occurs_app_r.
  assert (Hs : startswith old (38 :: t ++ r) = false).
  { destruct (startswith old (38 :: t ++ r)) eqn:E; [|reflexivity]. exfalso.
    change (38 :: t ++ r) with ((38 :: t) ++ r) in E. rewrite <- Et in E.
    destruct Ho as [<-|[<-|[]]]; destruct He as [<-|[<-|[<-|[]]]]; discriminate E. }
  rewrite (str_replace_copy old new Hne _ _ Hs).
  rewrite str_replace_skip; [|exact Hne | rewrite Hh; exact Ht].
  exists [], (str_replace r old new). reflexivity.
Qed.

(** The last rule takes one level of escaping away. *)
Lemma escaped_unescaped e s :
  In e entities ->
  occurs (escaped e) s -> occurs e (str_replace s amp (lit "&")).
Proof.
  intros He (l & r & ->).
  assert (Ee : exists t, e = 38 :: t /\ ~ In 38 t).
  { destruct He as [<-|[<-|[<-|[]]]]; eexists; (split; [reflexivity|]); not_in. }
  destruct Ee as (t & Et & Ht).
  replace (escaped e ++ r) with (38 :: lit "amp;" ++ t ++ r)
    by (rewrite Et; unfold escaped; cbn [tl]; rewrite <- app_assoc; reflexivity).
  rewrite (str_replace_app_head amp (lit "&") ltac:(discriminate) 38 (lit "amp;") l
             (lit "amp;" ++ t ++ r) eq_refl ltac:(not_in)).
  apply occurs_app_r.
  change (38 :: lit "amp;" ++ t ++ r) with (amp ++ t ++ r).
  rewrite str_replace_match by discriminate.
  rewrite str_replace_skip; [|discriminate | exact Ht].
  rewrite Et. exists [], (str_replace r amp (lit "&")). reflexivity.
Qed.

(** X3.  Unescaping goes one level deep, always: an entity whose
    ampersand is itself escaped in the text (its marks removed) comes
    out as that entity, not as the character it stands for. *)
Theorem escaped_entity_survives
    (T e : str) (He : In e entities) (H : occurs (escaped e) (strip_bom T)) :
  occurs e (transform T).
Proof.
  rewrite transform_stages. apply escaped_unescaped; [exact He|].
  unfold after_quot, after_apos.
  apply escaped_through; [right; left; reflexivity | exact He|].
  apply escaped_through; [left; reflexivity | exact He | exact H].
Qed.

Lemma escaped_entity_survives_witness :
  In quot entities /\
  occurs (escaped quot) (strip_bom (lit "a" ++ [BOM] ++ lit "&amp;quot;b")) /\
  occurs quot (transform (lit "a" ++ [BOM] ++ lit "&amp;quot;b")).
Proof.
  assert (He : In quot entities) by (right; left; reflexivity).
  assert (H : occurs (escaped quot)
                (strip_bom (lit "a" ++ [BOM] ++ lit "&amp;quot;b")))
    by (exists (lit "a"), (lit "b"); reflexivity).
  split; [exact He|]. split; [exact H|].
  exact (escaped_entity_survives _ quot He H).
Defined.

Lemma transform_sep a c b :
  ~ In c alphabet -> transform (a ++ c :: b) = transform a ++ c :: transform b.
Proof.
  intros Hc. unfold transform.
  rewrite (str_replace_sep [BOM] []); [|discriminate|].
  rewrite (str_replace_sep apos); [|discriminate|].
  rewrite (str_replace_sep quot); [|discriminate|].
  rewrite (str_replace_sep amp); [reflexivity|discriminate|].
  all: intros H; apply Hc; unfold alphabet; rewrite !in_app_iff; tauto.
Qed.

Lemma line_feed_foreign : ~ In LF alphabet.
Proof.
  vm_compute. intros H.
  repeat (destruct H as [H|H]; [discriminate H|]). exact H.
Qed.

Lemma transform_join ls :
  ls <> [] -> transform (join [LF] ls) = join [LF] (map transform ls).
Proof.
  induction ls as [|l ls IH]; [contradiction|]. intros _.
  destruct ls as [|l' ls]; [reflexivity|].
  rewrite join_cons by discriminate.
  change ([LF] ++ join [LF] (l' :: ls)) with (LF :: join [LF] (l' :: ls)).
  rewrite transform_sep by exact line_feed_foreign.
  rewrite IH by discriminate. cbn [map].
  rewrite (join_cons [LF] (transform l)) by discriminate. reflexivity.
Qed.

(** X4.  The chain works line by line: the result is the lines of the
    text, each transformed on its own, joined again.  No rule joins or
    splits lines, and nothing is unescaped across a line feed. *)
Theorem transform_line_by_line (T : str) :
  transform T = join [LF] (map transform (split_on LF T)).
Proof.
  rewrite <- transform_join by apply split_on_nonempty.
  rewrite join_split. reflexivity.
Qed.

(** X5.  The characters the chain has no rule for, that is all but
    the mark, the characters of the three entities and the two quotes,
    are the same, in the same order, before and after. *)
Theorem transform_keeps_outside (T : str) : outside (transform T) = outside T.
Proof.
  unfold outside, transform.
  rewrite !str_replace_filter; try reflexivity; try discriminate.
  all: repeat constructor.
Qed.

(** ** One file, further *)


(** X7.  After a successful pass the file reads as the transformed
    text: what is written, with its CR LF terminators, decodes and
    reads back to exactly what the chain produced. *)
Theorem read_after_pass
    describe (p : string) (w : world) (T : str)
    (Hr : fst (read_text p w) = inr T)
    (Hok : fst (fix_body p w) = inr tt) :
  fst (read_text p (snd (fix_file describe p w))) = inr (transform T).
Proof.
  destruct (fix_file_cases describe p w)
    as [(f & bs & Hf & Hrd & Hw & Hb & _ & E)|(e & He & _)]; [|congruence].
  rewrite E. cbn [snd]. unfold read_text in *. cbn [disk].
  rewrite lookup_insert_eq. rewrite Hf, Hrd in Hr.
  cbn [set_bytes file_readable file_bytes]. rewrite Hrd.
  destruct (utf8_decode (file_bytes f)) as [raw|] eqn:Hd; [|discriminate].
  cbn [fst] in Hr. injection Hr as <-.
  destruct (fixed_bytes_decodes _ _ Hd) as (bs' & Hb' & _ & Hd').
  assert (bs' = bs) by congruence. subst bs'.
  rewrite Hd'. cbn [fst]. f_equal.
  apply universal_newlines_write, transform_no_cr, universal_newlines_no_cr.
Qed.

Lemma read_after_pass_witness :
  fst (read_text "a.tsx" three_paths_world)
  = inr (lit "It&apos;s" ++ [LF] ++ lit "ok" ++ [LF]) /\
  fst (fix_body "a.tsx" three_paths_world) = inr tt /\
  fst (read_text "a.tsx" (snd (fix_file sample_describe "a.tsx" three_paths_world)))
  = inr (transform (lit "It&apos;s" ++ [LF] ++ lit "ok" ++ [LF])).
Proof.
  assert (Hr : fst (read_text "a.tsx" three_paths_world)
               = inr (lit "It&apos;s" ++ [LF] ++ lit "ok" ++ [LF]))
    by (vm_compute; reflexivity).
  assert (Hok : fst (fix_body "a.tsx" three_paths_world) = inr tt)
    by (vm_compute; reflexivity).
  split; [exact Hr|]. split; [exact Hok|].
  exact (read_after_pass sample_describe "a.tsx" three_paths_world _ Hr Hok).
Defined.

Lemma utf8_decode_mark_bytes bs :
  utf8_decode (mark_bytes ++ bs) = option_map (cons BOM) (utf8_decode bs).
Proof. reflexivity. Qed.

(** X8.  The file is read as [utf-8], which keeps an encoded mark at
    its head as a character, and the first rule removes it: a pass
    writes for a file with the three bytes of the mark in front what it
    writes for the file without them, and fails when that one fails. *)
Theorem leading_mark_dropped (bs : list Z) :
  fixed_bytes (mark_bytes ++ bs) = fixed_bytes bs.
Proof.
  unfold fixed_bytes. rewrite utf8_decode_mark_bytes.
  destruct (utf8_decode bs) as [raw|]; [|reflexivity]. cbn [option_map].
  change (universal_newlines (BOM :: raw)) with (BOM :: universal_newlines raw).
  unfold transform.
  change (str_replace (BOM :: universal_newlines raw) [BOM] [])
    with (strip_bom ([] ++ BOM :: universal_newlines raw)).
  rewrite strip_bom_mark. reflexivity.
Qed.

(** ** The batch, further *)

(** The effect of a pass on the disk depends on the file alone. *)
Lemma fix_disk_shape p (d : gmap string file) :
  exists o : option file,
    forall d', d' !! p = d !! p ->
      fix_disk p d' = match o with Some f' => <[p := f']> d' | None => d' end.
Proof.
  destruct (d !! p) as [f|] eqn:Hf.
  2:{ exists None. intros d' E. unfold fix_disk. rewrite E. reflexivity. }
  destruct (file_readable f && file_writable f) eqn:Hrw.
  2:{ exists None. intros d' E. unfold fix_disk. rewrite E, Hrw. reflexivity. }
  destruct (fixed_bytes (file_bytes f)) as [bs|] eqn:Hb.
  - exists (Some (set_bytes bs f)). intros d' E. unfold fix_disk.
    rewrite E, Hrw, Hb. reflexivity.
  - exists None. intros d' E. unfold fix_disk. rewrite E, Hrw, Hb. reflexivity.
Qed.

Lemma fix_disk_exchange p q (d : gmap string file) :
  fix_disk p (fix_disk q d) = fix_disk q (fix_disk p d).
Proof.
  destruct (decide (p = q)) as [->|Hne]; [reflexivity|].
  destruct (fix_disk_shape p d) as (op & Hp).
  destruct (fix_disk_shape q d) as (oq & Hq).
  rewrite (Hq d eq_refl), (Hp d eq_refl).
  destruct op as [fp|], oq as [fq|].
  - rewrite Hp by (apply lookup_insert_ne; congruence).
    rewrite Hq by (apply lookup_insert_ne; congruence).
    apply insert_insert_ne. exact Hne.
  - rewrite (Hp d eq_refl).
    rewrite Hq by (apply lookup_insert_ne; congruence). reflexivity.
  - rewrite (Hq d eq_refl).
    rewrite Hp by (apply lookup_insert_ne; congruence). reflexivity.
  - rewrite (Hp d eq_refl), (Hq d eq_refl). reflexivity.
Qed.

Lemma fix_disk_fold_perm l l' :
  Permutation l l' ->
  forall d, fold_left (fun d p => fix_disk p d) l d
            = fold_left (fun d p => fix_disk p d) l' d.
Proof.
  induction 1 as [|x l l' _ IH|x y l|l l' l'' _ IH1 _ IH2]; intros d.
  - reflexivity.
  - cbn [fold_left]. apply IH.
  - cbn [fold_left]. rewrite fix_disk_exchange. reflexivity.
  - rewrite IH1. apply IH2.
Qed.

Lemma fix_disk_fold_other paths p (d : gmap string file) :
  ~ In p paths -> fold_left (fun d q => fix_disk q d) paths d !! p = d !! p.
Proof.
  revert d. induction paths as [|q rest IH]; intros d H; [reflexivity|].
  cbn [fold_left]. rewrite IH by (intros Hin; apply H; right; exact Hin).
  apply fix_disk_other. intros ->. apply H. left. reflexivity.
Qed.

Lemma fix_disk_none q p (d : gmap string file) :
  fix_disk q d !! p = None <-> d !! p = None.
Proof.
  destruct (decide (q = p)) as [->|Hne]; [|rewrite fix_disk_other by exact Hne; tauto].
  unfold fix_disk. destruct (d !! p) as [f|] eqn:Hf; [|rewrite Hf; tauto].
  destruct (file_readable f && file_writable f); [|rewrite Hf; tauto].
  destruct (fixed_bytes (file_bytes f)); [|rewrite Hf; tauto].
  rewrite lookup_insert_eq. split; discriminate.
Qed.

(** X9.  The script touches the listed files only: a path that is not
    in the list holds after the batch what it held before. *)
Theorem unlisted_untouched
    describe (paths : list string) (p : string) (w : world)
    (H : ~ In p paths) :
  disk (snd (fix_all describe paths w)) !! p = disk w !! p.
Proof.
  rewrite fix_all_disk, for_each_disk. apply fix_disk_fold_other, H.
Qed.

Lemma unlisted_untouched_witness :
  ~ In "c.tsx"%string ["a.tsx"; "b.tsx"]%string /\
  disk (snd (fix_all sample_describe ["a.tsx"; "b.tsx"]%string three_paths_world))
    !! "c.tsx"%string
  = disk three_paths_world !! "c.tsx"%string.
Proof.
  assert (H : ~ In "c.tsx"%string ["a.tsx"; "b.tsx"]%string).
  { intros [H|[H|[]]]; discriminate H. }
  split; [exact H|].
  exact (unlisted_untouched sample_describe _ _ three_paths_world H).
Defined.

(** X10.  The script creates no file and removes none: opening for
    writing would create a missing file, but the read before it has
    failed by then.  A path names a file after the batch exactly when
    it did before. *)
Theorem no_file_created describe (paths : list string) (p : string) (w : world) :
  disk (snd (fix_all describe paths w)) !! p = None <-> disk w !! p = None.
Proof.
  rewrite fix_all_disk, for_each_disk. generalize (disk w).
  induction paths as [|q rest IH]; intros d; [tauto|].
  cbn [fold_left]. rewrite IH. apply fix_disk_none.
Qed.

(** X11.  The files do not depend on the order of the list: two lists
    with the same paths, each as many times, leave the same disk. *)
Theorem order_irrelevant
    describe (paths paths' : list string) (w : world)
    (H : Permutation paths paths') :
  disk (snd (fix_all describe paths w)) = disk (snd (fix_all describe paths' w)).
Proof.
  rewrite !fix_all_disk, !for_each_disk. apply fix_disk_fold_perm, H.
Qed.

Lemma order_irrelevant_witness :
  Permutation ["a.tsx"; "b.tsx"; "c.tsx"]%string ["c.tsx"; "a.tsx"; "b.tsx"]%string /\
  disk (snd (fix_all sample_describe ["a.tsx"; "b.tsx"; "c.tsx"]%string
               three_paths_world))
  = disk (snd (fix_all sample_describe ["c.tsx"; "a.tsx"; "b.tsx"]%string
                 three_paths_world)).
Proof.
  assert (P : Permutation ["a.tsx"; "b.tsx"; "c.tsx"]%string
                          ["c.tsx"; "a.tsx"; "b.tsx"]%string).
  { apply Permutation_sym. apply (Permutation_cons_app ["a.tsx"; "b.tsx"]%string []).
    apply Permutation_refl. }
  split; [exact P|].
  exact (order_irrelevant sample_describe _ _ three_paths_world P).
Defined.


Lemma files_to_fix_once p :
  In p files_to_fix -> count_occ string_dec files_to_fix p = 1%nat.
Proof.
  intros H. unfold files_to_fix in H.
  repeat (destruct H as [<-|H]; [vm_compute; reflexivity|]). destruct H.
Qed.

(** X13.  The ten paths of the list are distinct, so the script makes
    one pass over each: a listed file that can be fixed holds, at the
    end, what a single pass leaves of its bytes, and ten lines are
    reported. *)
Theorem main_one_pass_each
    describe (w : world) (p : string) (f : file)
    (Hin : In p files_to_fix)
    (Hok : fst (fix_body p w) = inr tt)
    (Hf : disk w !! p = Some f) :
  (exists bs, fixed_bytes (file_bytes f) = Some bs /\
              disk (snd (main describe w)) !! p = Some (set_bytes bs f)) /\
  length (report_lines describe files_to_fix w) = 10%nat.
Proof.
  split; [|rewrite report_lines_map; reflexivity].
  assert (Hnf : ~ fails p w) by (intros [e He]; congruence).
  destruct (for_each_fixed describe files_to_fix p w f Hnf Hf) as (bs & Hn & Hd).
  rewrite (files_to_fix_once p Hin) in Hn. cbn [fixed_bytes_times] in Hn.
  destruct (fixed_bytes (file_bytes f)) as [bs'|]; [|discriminate].
  injection Hn as ->. exists bs. split; [reflexivity|].
  unfold main. rewrite fix_all_disk. exact Hd.
Qed.

Lemma main_one_pass_each_witness :
  In scenario_path files_to_fix /\
  fst (fix_body scenario_path scenario_world) = inr tt /\
  disk scenario_world !! scenario_path = Some (File scenario_bytes true true) /\
  (exists bs, fixed_bytes scenario_bytes = Some bs /\
              disk (snd (main sample_describe scenario_world)) !! scenario_path
              = Some (set_bytes bs (File scenario_bytes true true))) /\
  length (report_lines sample_describe files_to_fix scenario_world) = 10%nat.
Proof.
  assert (Hin : In scenario_path files_to_fix) by (vm_compute; tauto).
  assert (Hok : fst (fix_body scenario_path scenario_world) = inr tt)
    by (vm_compute; reflexivity).
  assert (Hf : disk scenario_world !! scenario_path
               = Some (File scenario_bytes true true))
    by (vm_compute; reflexivity).
  split; [exact Hin|]. split; [exact Hok|]. split; [exact Hf|].
  exact (main_one_pass_each sample_describe scenario_world scenario_path _ Hin Hok Hf).
Defined.
